(** * Shallow embedding of the strategic hangman solver

    Source: hangman-client/src/solver/strategic.rs.

    Rust strings are modelled as their UTF-8 bytes ([list Z], every byte in
    0..255); a [HashSet<u8>] is a duplicate-free list of bytes, a
    [HashMap<u8, usize>] an association list.  The random number generator
    ([SquirrelRng]) and the iteration order of the hash map are not part of
    this repository: they are section variables of the solver, constrained
    only by what the code relies on. *)

From Stdlib Require Import List ZArith Bool Lia Permutation Sorted.
From Stdlib Require String.
Import ListNotations.
Open Scope Z_scope.

(** ** Byte strings *)

Definition str := list Z.

(** [str::is_ascii] *)
Definition is_ascii (s : str) : bool := forallb (fun u => u <? 128) s.

(** [u8::to_ascii_uppercase] *)
Definition to_ascii_uppercase_byte (u : Z) : Z :=
  if (97 <=? u) && (u <=? 122) then u - 32 else u.

(** [str::to_ascii_uppercase] *)
Definition to_ascii_uppercase (s : str) : str := map to_ascii_uppercase_byte s.

(** Lexicographic byte order of [String]'s [Ord]. *)
Fixpoint str_cmp (a b : str) : comparison :=
  match a, b with
  | [], [] => Eq
  | [], _ :: _ => Lt
  | _ :: _, [] => Gt
  | x :: a', y :: b' =>
      match Z.compare x y with
      | Eq => str_cmp a' b'
      | c => c
      end
  end.

Fixpoint insert_sorted (s : str) (l : list str) : list str :=
  match l with
  | [] => [s]
  | t :: l' =>
      match str_cmp s t with
      | Gt => t :: insert_sorted s l'
      | _ => s :: l
      end
  end.

(** [slice::sort_unstable] on [Vec<String>]: the order is total on values,
    so every sorting algorithm yields the same list. *)
Definition sort_unstable (l : list str) : list str := fold_right insert_sorted [] l.

(** [Iterator::filter_map] *)
Fixpoint filter_map {A B : Type} (f : A -> option B) (l : list A) : list B :=
  match l with
  | [] => []
  | x :: l' =>
      match f x with
      | Some y => y :: filter_map f l'
      | None => filter_map f l'
      end
  end.

(** [bool::then] *)
Definition bool_then {A : Type} (b : bool) (x : A) : option A :=
  if b then Some x else None.

(** [StrategicSolverFactory::from_words] (the dictionary it builds). *)
Definition from_words (words : list str) : list str :=
  sort_unstable
    (filter_map
       (fun word => bool_then (Nat.leb 5 (length word) && is_ascii word)
                              (to_ascii_uppercase word))
       words).

(** [str::lines]: split at ['\n'] (10); a ['\r'] (13) right before a
    ['\n'] is dropped with it; no empty last line after a final ['\n']. *)
Definition strip_suffix_cr (s : str) : str :=
  match rev s with
  | c :: r => if c =? 13 then rev r else s
  | [] => s
  end.

Fixpoint lines_go (cur : str) (s : str) : list str :=
  match s with
  | [] =>
      match cur with
      | [] => []
      | _ :: _ => [rev cur]
      end
  | u :: s' =>
      if u =? 10 then strip_suffix_cr (rev cur) :: lines_go [] s'
      else lines_go (u :: cur) s'
  end.

Definition lines (s : str) : list str := lines_go [] s.

(** [StrategicSolverFactory::from_path] once the file has been read into
    [text]. *)
Definition from_path_text (text : str) : list str := from_words (lines text).

(** ** Regular expressions of [build_expr]

    [Regex::new] and [Regex::is_match] of the regex crate on the fragment
    [build_expr] produces for a masked word: a concatenation of [.] and
    literal ASCII letters and digits.  Outside that fragment [regex_new]
    answers [None]; so [regex_new p = Some _] implies the crate compiles
    [p].  [.] matches one character other than ['\n'];  on ASCII text a
    character is a byte.  [is_match] searches for a match at any offset (the
    pattern has no anchors). *)

Inductive atom : Type :=
| Any : atom
| Lit : Z -> atom.

Definition Regex := list atom.

Definition regex_literal_byte (u : Z) : bool :=
  ((48 <=? u) && (u <=? 57)) || ((65 <=? u) && (u <=? 90))
  || ((97 <=? u) && (u <=? 122)).

Fixpoint regex_new (pat : str) : option Regex :=
  match pat with
  | [] => Some []
  | u :: p =>
      if u =? 46 then option_map (cons Any) (regex_new p)
      else if regex_literal_byte u then option_map (cons (Lit u)) (regex_new p)
      else None
  end.

Definition atom_matches (a : atom) (u : Z) : bool :=
  match a with
  | Any => negb (u =? 10)
  | Lit c => c =? u
  end.

Fixpoint match_here (re : Regex) (t : str) : bool :=
  match re, t with
  | [], _ => true
  | a :: re', u :: t' => atom_matches a u && match_here re' t'
  | _ :: _, [] => false
  end.

Fixpoint is_match (re : Regex) (t : str) : bool :=
  match_here re t ||
  match t with
  | [] => false
  | _ :: t' => is_match re t'
  end.

(** [build_expr]: ['*'] (42) becomes ['.'] (46), every other byte is
    upper-cased. *)
Definition build_expr_byte (u : Z) : Z :=
  if u =? 42 then 46 else to_ascii_uppercase_byte u.

Definition build_expr (word : str) : option Regex :=
  regex_new (map build_expr_byte word).

(** The atom [build_expr] yields for a byte of a well-formed masked word. *)
Definition masked_atom (u : Z) : atom := if u =? 42 then Any else Lit u.

(** ** Hash sets and hash maps *)

(** [HashSet::contains] *)
Definition contains (s : list Z) (u : Z) : bool := existsb (Z.eqb u) s.

(** [HashSet::insert] *)
Definition hs_insert (s : list Z) (u : Z) : list Z :=
  if contains s u then s else u :: s.

(** [*frequency.entry(u).or_insert(0) += 1] *)
Fixpoint entry_incr (u : Z) (m : list (Z * nat)) : list (Z * nat) :=
  match m with
  | [] => [(u, 1%nat)]
  | (k, v) :: m' => if k =? u then (k, S v) :: m' else (k, v) :: entry_incr u m'
  end.

Definition tally (bytes : list Z) : list (Z * nat) :=
  fold_left (fun m u => entry_incr u m) bytes [].

(** The value of a key in the map, [0] when absent. *)
Fixpoint tally_get (m : list (Z * nat)) (u : Z) : nat :=
  match m with
  | [] => 0
  | (k, v) :: m' => if k =? u then v else tally_get m' u
  end.

(** ** [Shape] *)

Record Shape : Type := { expr : Regex; shape_disallow : list Z }.

(** [Shape::filter] *)
Definition Shape_filter (sh : Shape) (text : str) : bool :=
  is_match (expr sh) text
  && forallb (fun u => negb (contains (shape_disallow sh) u)) text.

(** ** Ranking *)

(** [sort_unstable_by_key(|f| Reverse(f.1))], as a stable insertion sort;
    since the hash-map order that feeds it is arbitrary (see [hash_iter]),
    every order [sort_unstable] may leave ties in is covered. *)
Fixpoint insert_by_freq (e : Z * nat) (l : list (Z * nat)) : list (Z * nat) :=
  match l with
  | [] => [e]
  | e' :: l' => if Nat.leb (snd e') (snd e) then e :: l else e' :: insert_by_freq e l'
  end.

Definition sort_by_reverse_freq (l : list (Z * nat)) : list (Z * nat) :=
  fold_right insert_by_freq [] l.

(** [first_rank_by_key]: the [filter_map] closure owns [key], set by the
    first item. *)
Fixpoint first_rank_go {A : Type} (f : A -> nat) (key : option nat) (l : list A)
  : list A :=
  match l with
  | [] => []
  | item :: l' =>
      let item_key := f item in
      match key with
      | None => item :: first_rank_go f (Some item_key) l'
      | Some k =>
          if Nat.eqb k item_key then item :: first_rank_go f key l'
          else first_rank_go f key l'
      end
  end.

Definition first_rank_by_key {A : Type} (i : list A) (f : A -> nat) : list A :=
  first_rank_go f None i.

(** [b'A'..=b'Z'] *)
Definition alphabet : list Z := map (fun i => 65 + Z.of_nat i) (seq 0 26).

(** ** A concrete generator, to run the solver on examples

    A linear congruential generator standing in for [SquirrelRng];
    [demo_gen_index r n] is [rand]'s [gen_index]: an index below [n]. *)
Definition demo_with_seed (seed : Z) : Z := seed.

Definition demo_gen_index (r : Z) (n : nat) : nat * Z :=
  (Z.to_nat (r mod Z.of_nat n), (r * 1103515245 + 12345) mod 2147483648).

(** One admissible iteration order of the frequency map. *)
Definition demo_hash_iter (m : list (Z * nat)) : list (Z * nat) := m.

(** Sample input: the words APPLE, GRAPE and BERRY, one per line, and masked
    words of five bytes. *)
Definition apple : str := [65; 80; 80; 76; 69].
Definition grape : str := [71; 82; 65; 80; 69].
Definition berry : str := [66; 69; 82; 82; 89].
Definition demo_text : str := apple ++ [10] ++ grape ++ [10] ++ berry ++ [10].
Definition mask5 : str := [42; 42; 42; 42; 42].
Definition mask_a_e : str := [65; 42; 42; 42; 69].

(** ** [str::lines] on a file with CRLF line ends

    [crlf text] writes every ['\n'] of [text] as ["\r\n"]. *)
Definition crlf (text : str) : str :=
  flat_map (fun u => if u =? 10 then [13; 10] else [u]) text.

(** ** The game ([hangman/src/lib.rs]) *)

Record Game : Type := { word : str; correct : list Z; incorrect : list Z }.

(** [HashSet::len() as i32]: a set of bytes has at most 256 elements, so the
    cast is exact. *)
Definition len_i32 (s : list Z) : Z := Z.of_nat (length s).

(** [Game::is_lost] *)
Definition is_lost (g : Game) : bool := (7 - len_i32 (incorrect g)) <=? 0.

(** [Game::is_won] *)
Definition is_won (g : Game) : bool := forallb (fun u => contains (correct g) u) (word g).

(** [Game::masked_word] *)
Definition masked_word (g : Game) : str :=
  map (fun u => if contains (correct g) u then u else 42) (word g).

(** [Game::guesses_remaining] *)
Definition guesses_remaining (g : Game) : Z := Z.max (7 - len_i32 (incorrect g)) 0.

(** [GameResponse] (fields [word], [guesses]) and [GameResponse::new]. *)
Record GameResponse : Type := { gr_word : str; gr_guesses : Z }.

Definition GameResponse_new (g : Game) : GameResponse :=
  {| gr_word := masked_word g; gr_guesses := guesses_remaining g |}.

(** [CreateGameResponse] (fields [id], [word], [guesses]; a [Uuid] is a
    number) and [CreateGameResponse::new]. *)
Record CreateGameResponse : Type := { cg_id : Z; cg_word : str; cg_guesses : Z }.

Definition CreateGameResponse_new (id : Z) (g : Game) : CreateGameResponse :=
  {| cg_id := id; cg_word := masked_word g; cg_guesses := guesses_remaining g |}.

(** [UpdateGameResponse] *)
Inductive UpdateGameResponse : Type :=
| Update (r : GameResponse)
| Finalize (victory : bool) (message : String.string) (w : str).

(** [UpdateGameResponse::update], [::win] and [::lose] *)
Definition UpdateGameResponse_update (g : Game) : UpdateGameResponse :=
  Update (GameResponse_new g).

Definition win (w : str) (message : String.string) : UpdateGameResponse :=
  Finalize true message w.

Definition lose (w : str) (message : String.string) : UpdateGameResponse :=
  Finalize false message w.

(** ** The server ([hangman-server/src/main.rs]) *)

(** The messages of the server's responses. *)
Module Messages.
Import String.
Local Open Scope string_scope.
Definition better_luck : string := "Better luck next time!".
Definition stop_rubbing : string := "I said you won! Stop rubbing it in. >.<".
Definition flawless : string := "FLAWLESS VICTORY!".
Definition victory_is_yours : string := "Victory is yours!".
Definition hanged : string := "Sorry, friend. You've been hanged!".
End Messages.

(** The server's [Error]; every variant is answered with status 400
    ([ResponseError::status_code]). *)
Inductive Error : Type :=
| GameNotFound (id : Z)
| IllegalGuess (letter : str)
| DuplicateGuess (letter : str).

(** [Result<T, Error>] *)
Inductive result (A E : Type) : Type :=
| Ok (a : A)
| Err (e : E).
Arguments Ok {A E}.
Arguments Err {A E}.

(** The game table [HashMap<Uuid, Game>], as an association list:
    [HashMap::get] / [get_mut], a write through [get_mut], and
    [HashMap::insert]. *)
Fixpoint games_get (games : list (Z * Game)) (id : Z) : option Game :=
  match games with
  | [] => None
  | (k, g) :: gs => if k =? id then Some g else games_get gs id
  end.

Fixpoint games_set (games : list (Z * Game)) (id : Z) (g : Game) : list (Z * Game) :=
  match games with
  | [] => []
  | (k, g0) :: gs => if k =? id then (k, g) :: gs else (k, g0) :: games_set gs id g
  end.

Definition games_insert (games : list (Z * Game)) (id : Z) (g : Game) : list (Z * Game) :=
  match games_get games id with
  | Some _ => games_set games id g
  | None => (id, g) :: games
  end.

(** [update_game] once the game has been found (from the [is_lost] check
    on): the response and the game as it is left in the table.  The letter
    has exactly one byte here, so [letter.bytes().next().unwrap()] is its
    first byte. *)
Definition update_game_found (g : Game) (letter : str)
  : result UpdateGameResponse Error * Game :=
  if is_lost g then (Ok (lose (word g) Messages.better_luck), g)
  else if is_won g then (Ok (win (word g) Messages.stop_rubbing), g)
  else
    let guess := to_ascii_uppercase_byte (hd 0 letter) in
    if contains (correct g) guess || contains (incorrect g) guess then
      (Err (DuplicateGuess letter), g)
    else if existsb (fun u => u =? guess) (word g) then
      let g' := {| word := word g; correct := hs_insert (correct g) guess;
                   incorrect := incorrect g |} in
      if is_won g' then
        if guesses_remaining g' >=? 3 then (Ok (win (word g') Messages.flawless), g')
        else (Ok (win (word g') Messages.victory_is_yours), g')
      else (Ok (UpdateGameResponse_update g'), g')
    else
      let g' := {| word := word g; correct := correct g;
                   incorrect := hs_insert (incorrect g) guess |} in
      if is_lost g' then (Ok (lose (word g') Messages.hanged), g')
      else (Ok (UpdateGameResponse_update g'), g').

(** [update_game]: the response and the game table afterwards. *)
Definition update_game (games : list (Z * Game)) (id : Z) (letter : str)
  : result UpdateGameResponse Error * list (Z * Game) :=
  if negb (Nat.eqb (length letter) 1) || negb (is_ascii letter) then
    (Err (IllegalGuess letter), games)
  else
    match games_get games id with
    | None => (Err (GameNotFound id), games)
    | Some g =>
        let (res, g') := update_game_found g letter in (res, games_set games id g')
    end.

(** [read_game] *)
Definition read_game (games : list (Z * Game)) (id : Z) : result UpdateGameResponse Error :=
  match games_get games id with
  | None => Err (GameNotFound id)
  | Some g =>
      if is_lost g then Ok (lose (word g) Messages.better_luck)
      else if is_won g then Ok (win (word g) Messages.stop_rubbing)
      else Ok (UpdateGameResponse_update g)
  end.

(** [read_words] once the file has been read into [text]. *)
Definition read_words_text (text : str) : list str :=
  map to_ascii_uppercase
    (filter (fun word => is_ascii word && Nat.leb 5 (length word)) (lines text)).

(** What [update_game] keeps true of every game in the table: both sets
    duplicate-free, [correct] inside the word and [incorrect] outside it, at
    most 7 misses, no lower-case letter recorded. *)
Definition game_wf (g : Game) : Prop :=
  NoDup (correct g) /\ NoDup (incorrect g) /\ incl (correct g) (word g) /\
  (forall u, In u (incorrect g) -> ~ In u (word g)) /\
  (length (incorrect g) <= 7)%nat /\
  (forall u, In u (correct g) \/ In u (incorrect g) -> ~ (97 <= u <= 122)).

(** Sample games on APPLE: fresh; with 'P' right and 'Z' wrong; won. *)
Definition apple_game : Game := {| word := apple; correct := []; incorrect := [] |}.
Definition apple_mid : Game := {| word := apple; correct := [80]; incorrect := [90] |}.
Definition apple_won : Game := {| word := apple; correct := [65; 80; 76; 69]; incorrect := [] |}.

(** ** The first server ([src/main.rs])

    Its [Game] and the methods [is_lost], [is_won], [masked_word] and
    [guesses_remaining] are the same code as in [hangman/src/lib.rs], so
    they are the definitions above. *)

(** [GameResponse] (fields [id], [word], [guesses]) *)
Record OldGameResponse : Type := { og_id : Z; og_word : str; og_guesses : Z }.

(** [PlayResponse] *)
Inductive PlayResponse : Type :=
| Victory (message : String.string)
| Defeat (message : String.string)
| Illegal (message : String.string)
| Continue (r : OldGameResponse).

(** The [io::Error] of kind [NotFound] for an unknown id. *)
Inductive PlayError : Type := NotFound (id : Z).

Module OldMessages.
Import String.
Local Open Scope string_scope.
Definition single_letter : string := "Your guess must consist of a single letter.".
Definition unique : string := "Your guesses must be unique.".
End OldMessages.

(** [play_game] on the request [{ id, letter }]: the response and the game
    table afterwards ([get_mut] writes the game back in place). *)
Definition play_game (games : list (Z * Game)) (id : Z) (letter : str)
  : result PlayResponse PlayError * list (Z * Game) :=
  match games_get games id with
  | None => (Err (NotFound id), games)
  | Some g =>
      if is_lost g then (Ok (Defeat Messages.better_luck), games)
      else if is_won g then (Ok (Victory Messages.stop_rubbing), games)
      else if negb (Nat.eqb (length letter) 1) then
        (Ok (Illegal OldMessages.single_letter), games)
      else
        let guess := to_ascii_uppercase_byte (hd 0 letter) in
        if contains (correct g) guess then (Ok (Illegal OldMessages.unique), games)
        else if existsb (fun u => u =? guess) (word g) then
          let g' := {| word := word g; correct := hs_insert (correct g) guess;
                       incorrect := incorrect g |} in
          (if is_won g' then
             if guesses_remaining g' >=? 3 then Ok (Victory Messages.flawless)
             else Ok (Victory Messages.victory_is_yours)
           else Ok (Continue {| og_id := id; og_word := masked_word g';
                                og_guesses := guesses_remaining g' |}),
           games_set games id g')
        else
          let g' := {| word := word g; correct := correct g;
                       incorrect := hs_insert (incorrect g) guess |} in
          (if is_lost g' then Ok (Defeat Messages.hanged)
           else Ok (Continue {| og_id := id; og_word := masked_word g';
                                og_guesses := guesses_remaining g' |}),
           games_set games id g')
  end.

(** ** [RandomSolver] ([hangman-client/src/solver/random.rs]) *)

Record RandomSolver : Type := { idx : nat; alpha : list Z }.

(** [b"abcdefghijklmnopqrstuvwxyz"] *)
Definition lowercase_alphabet : list Z := map (fun i => 97 + Z.of_nat i) (seq 0 26).

(** [RandomSolver::next]; [None] is the panic of [self.alpha[self.idx]]. *)
Definition RandomSolver_next (s : RandomSolver) : option (Z * RandomSolver) :=
  let i := if Nat.leb (length (alpha s)) (idx s) then 0%nat else idx s in
  match nth_error (alpha s) i with
  | Some next => Some (next, {| idx := S i; alpha := alpha s |})
  | None => None
  end.

(** [RandomSolver::new], given [SliceRandom::shuffle] (the shuffled slice
    and the advanced generator) and the generator [SquirrelRng::new()]. *)
Definition RandomSolver_new {R : Type} (shuffle : list Z -> R -> list Z * R) (r : R)
  : RandomSolver :=
  {| idx := 0; alpha := fst (shuffle lowercase_alphabet r) |}.

(** [n] calls of [next_letter] (the word is only printed). *)
Fixpoint RandomSolver_run (s : RandomSolver) (n : nat) : option (list Z * RandomSolver) :=
  match n with
  | O => Some ([], s)
  | S n' =>
      match RandomSolver_next s with
      | None => None
      | Some (u, s') =>
          match RandomSolver_run s' n' with
          | None => None
          | Some (us, s'') => Some (u :: us, s'')
          end
      end
  end.

(** ** The solver *)

Section Solver.

(** The state of [SquirrelRng]. *)
Variable R : Type.
(** [SquirrelRng::with_seed] *)
Variable with_seed : Z -> R.
(** [rand::seq::gen_index(rng, n)]: an index and the advanced generator. *)
Variable gen_index : R -> nat -> nat * R.
(** The order in which [HashMap::into_iter] yields the entries of the map. *)
Variable hash_iter : list (Z * nat) -> list (Z * nat).

Record SolverState : Type := {
  submitted : list Z;
  uncharacterized : option Z;
  disallow : list Z;
  rng : R
}.

(** [impl Default for SolverState] *)
Definition SolverState_default : SolverState :=
  {| submitted := []; uncharacterized := None; disallow := [];
     rng := with_seed 3408509824 |}.

(** [SliceRandom::choose]: [None] when empty; the outer [None] is the
    panic of an out-of-range index. *)
Definition slice_choose {A : Type} (l : list A) (r : R) : option (option A * R) :=
  match l with
  | [] => Some (None, r)
  | _ :: _ =>
      let (i, r') := gen_index r (length l) in
      match nth_error l i with
      | Some a => Some (Some a, r')
      | None => None
      end
  end.

(** [IteratorRandom::choose] on an iterator with an exact size hint:
    [self.nth(gen_index(rng, len))]. *)
Definition iter_choose {A : Type} (l : list A) (r : R) : option A * R :=
  match l with
  | [] => (None, r)
  | _ :: _ =>
      let (i, r') := gen_index r (length l) in (nth_error l i, r')
  end.

(** [SolverState::characterize] *)
Definition characterize (st : SolverState) (word : str) : SolverState :=
  match uncharacterized st with
  | Some u =>
      {| submitted := hs_insert (submitted st) u;
         uncharacterized := None;
         disallow := if existsb (fun uword => u =? uword) word then disallow st
                     else hs_insert (disallow st) u;
         rng := rng st |}
  | None => st
  end.

(** The [Shape] that [next] builds from the compiled expression. *)
Definition shape_of (st : SolverState) (re : Regex) : Shape :=
  {| expr := re; shape_disallow := disallow st |}.

(** [filtered_dictionary] *)
Definition filtered_dictionary (st : SolverState) (re : Regex) (dictionary : list str)
  : list str :=
  filter (Shape_filter (shape_of st re)) dictionary.

(** [frequency]: every byte of every filtered word ([flat_map(word.bytes())]). *)
Definition frequency_of (st : SolverState) (re : Regex) (dictionary : list str)
  : list (Z * nat) :=
  tally (flat_map (fun word => word) (filtered_dictionary st re dictionary)).

(** [by_frequency] *)
Definition by_frequency_of (st : SolverState) (re : Regex) (dictionary : list str)
  : list (Z * nat) :=
  sort_by_reverse_freq
    (filter (fun entry => negb (contains (submitted st) (fst entry)))
            (hash_iter (frequency_of st re dictionary))).

(** [first_rank]: the tie-break set. *)
Definition first_rank_of (st : SolverState) (re : Regex) (dictionary : list str)
  : list Z :=
  map fst (first_rank_by_key (by_frequency_of st re dictionary) snd).

Definition record_selection (st : SolverState) (u : Z) (r : R) : SolverState :=
  {| submitted := submitted st; uncharacterized := Some u;
     disallow := disallow st; rng := r |}.

(** [SolverState::next]; [None] is a panic (an [unwrap] on [None]). *)
Definition next (st0 : SolverState) (word : str) (dictionary : list str)
  : option (Z * SolverState) :=
  let st := characterize st0 word in
  match build_expr word with
  | None => None
  | Some re =>
      match slice_choose (first_rank_of st re dictionary) (rng st) with
      | None => None
      | Some (Some u, r) => Some (u, record_selection st u r)
      | Some (None, r) =>
          match iter_choose alphabet r with
          | (Some u, r') => Some (u, record_selection st u r')
          | (None, _) => None
          end
      end
  end.

(** One [next_letter] per turn, in turn order. *)
Fixpoint run (st : SolverState) (words : list str) (dictionary : list str)
  : option (list Z * SolverState) :=
  match words with
  | [] => Some ([], st)
  | w :: ws =>
      match next st w dictionary with
      | None => None
      | Some (u, st') =>
          match run st' ws dictionary with
          | None => None
          | Some (us, st'') => Some (u :: us, st'')
          end
      end
  end.

(** ** The server's use of the generator *)

(** [build_game]; [None] is the panic of [expect] on an empty word list
    (or of an out-of-range index). *)
Definition build_game (words : list str) (r : R) : option (Game * R) :=
  match slice_choose words r with
  | Some (Some w, r') => Some ({| word := w; correct := []; incorrect := [] |}, r')
  | _ => None
  end.

(** [create_game] with the fresh [Uuid::new_v4()] [id]: the response, the
    generator and the game table afterwards. *)
Definition create_game (words : list str) (r : R) (games : list (Z * Game)) (id : Z)
  : option (CreateGameResponse * R * list (Z * Game)) :=
  match build_game words r with
  | None => None
  | Some (g, r') => Some (CreateGameResponse_new id g, r', games_insert games id g)
  end.

(** ** The client's game loop ([hangman-client/src/main.rs], [run]) *)

(** [char::to_string] of [u as char] for a byte [u]: its UTF-8 encoding. *)
Definition char_to_string (u : Z) : str :=
  if u <? 128 then [u] else [192 + u / 64; 128 + u mod 64].

(** The [loop] of [run] with the strategic solver ([next_letter] is
    [SolverState::next] on the solver's dictionary) and the server's
    [update_game] on the game [id]: the letter of each turn is sent;
    [Finalize] ends the loop with its [victory] flag; [Update] carries the
    next masked word.  An error response (status 400) leaves this path:
    whether it reaches the [continue] arm or fails in [response.json()]
    depends on the HTTP client, so the loop stops there with no victory flag
    ([None]).  The result lists the letters sent; [fuel] bounds the number
    of turns. *)
Fixpoint client_loop (fuel : nat) (st : SolverState) (w : str) (dictionary : list str)
    (games : list (Z * Game)) (id : Z) : option (list Z * option bool * list (Z * Game)) :=
  match fuel with
  | O => None
  | S fuel' =>
      match next st w dictionary with
      | None => None
      | Some (u, st') =>
          match update_game games id (char_to_string u) with
          | (Err _, games') => Some ([u], None, games')
          | (Ok (Finalize victory _ _), games') => Some ([u], Some victory, games')
          | (Ok (Update r), games') =>
              match client_loop fuel' st' (gr_word r) dictionary games' id with
              | Some (us, v, gs) => Some (u :: us, v, gs)
              | None => None
              end
          end
      end
  end.

(** What the solver's history says about the game it plays: the server's
    sets are duplicate-free, [correct] holds bytes of the word and
    [incorrect] none; the guesses the server recorded are exactly the
    solver's submitted and pending letters; no disallowed letter is in the
    word. *)
Definition consistent (st : SolverState) (g : Game) : Prop :=
  NoDup (correct g) /\ NoDup (incorrect g) /\
  incl (correct g) (word g) /\
  (forall u, In u (incorrect g) -> ~ In u (word g)) /\
  (forall u, In u (submitted st) -> In u (correct g) \/ In u (incorrect g)) /\
  (forall u, uncharacterized st = Some u -> In u (correct g) \/ In u (incorrect g)) /\
  (forall u, In u (correct g) \/ In u (incorrect g) ->
             In u (submitted st) \/ uncharacterized st = Some u) /\
  (forall u, In u (disallow st) -> ~ In u (word g)).

(** The generator only hands out indices below the bound it is given
    ([gen_range(0..n)]), and the map yields each of its entries once. *)
Hypothesis gen_index_lt : forall r n, (0 < n)%nat -> (fst (gen_index r n) < n)%nat.
Hypothesis hash_iter_perm : forall m, Permutation (hash_iter m) m.

(** ** Lemmas: the dictionary *)

Lemma filter_map_bool_then {A B : Type} (p : A -> bool) (f : A -> B) (l : list A) :
  filter_map (fun x => bool_then (p x) (f x)) l = map f (filter p l).
Proof.
  induction l as [|x l IH]; simpl; [reflexivity|].
  destruct (p x); simpl; rewrite IH; reflexivity.
Qed.

Lemma insert_sorted_perm (s : str) (l : list str) :
  Permutation (insert_sorted s l) (s :: l).
Proof.
  induction l as [|t l IH]; simpl; [reflexivity|].
  destruct (str_cmp s t); try reflexivity.
  rewrite IH. apply perm_swap.
Qed.

Lemma sort_unstable_perm (l : list str) : Permutation (sort_unstable l) l.
Proof.
  induction l as [|x l IH]; simpl; [reflexivity|].
  rewrite insert_sorted_perm. now apply perm_skip.
Qed.

Lemma from_words_perm (words : list str) :
  Permutation (from_words words)
    (map to_ascii_uppercase
       (filter (fun w => Nat.leb 5 (length w) && is_ascii w) words)).
Proof.
  unfold from_words. rewrite sort_unstable_perm.
  rewrite <- filter_map_bool_then. reflexivity.
Qed.

Lemma from_words_In (words : list str) (x : str) :
  In x (from_words words) <->
  exists w, In w words /\ (5 <= length w)%nat /\ is_ascii w = true
            /\ x = to_ascii_uppercase w.
Proof.
  split.
  - intro H. apply (Permutation_in _ (from_words_perm words)) in H.
    apply in_map_iff in H as [w [Hx Hw]].
    apply filter_In in Hw as [Hw Hp].
    apply andb_true_iff in Hp as [H5 Ha].
    exists w; repeat split; auto. now apply Nat.leb_le.
  - intros [w [Hw [H5 [Ha Hx]]]].
    apply (Permutation_in _ (Permutation_sym (from_words_perm words))).
    apply in_map_iff. exists w; split; [auto|].
    apply filter_In; split; [auto|].
    apply andb_true_iff; split; [now apply Nat.leb_le|auto].
Qed.

Lemma strip_suffix_cr_incl (s : str) (u : Z) : In u (strip_suffix_cr s) -> In u s.
Proof.
  unfold strip_suffix_cr. intro H.
  destruct (rev s) as [|c r] eqn:E; [exact H|].
  destruct (c =? 13); [|exact H].
  apply in_rev. rewrite E. right. now apply in_rev.
Qed.

Lemma lines_go_no_newline (cur s : str) :
  ~ In 10 cur -> Forall (fun l => ~ In 10 l) (lines_go cur s).
Proof.
  revert cur. induction s as [|u s IH]; intros cur Hc; simpl.
  - destruct cur; constructor; [|constructor]. now rewrite <- in_rev.
  - destruct (Z.eqb_spec u 10) as [->|Hu].
    + constructor; [|apply IH; simpl; tauto].
      intro H. apply strip_suffix_cr_incl, in_rev in H. contradiction.
    + apply IH. simpl. intros [H|H]; [congruence|contradiction].
Qed.

Lemma lines_go_sub (cur s l : str) (b : Z) :
  In l (lines_go cur s) -> In b l -> In b cur \/ In b s.
Proof.
  revert cur. induction s as [|u s IH]; intros cur Hl Hb; simpl in Hl.
  - destruct cur as [|c cur]; [destruct Hl|].
    destruct Hl as [<-|[]]. left. now apply in_rev.
  - destruct (u =? 10).
    + destruct Hl as [<-|Hl].
      * left. apply strip_suffix_cr_incl in Hb. now apply in_rev.
      * destruct (IH [] Hl Hb) as [[]|H]. right. now right.
    + destruct (IH (u :: cur) Hl Hb) as [[<-|H]|H]; [right; now left|now left|right; now right].
Qed.

Lemma to_ascii_uppercase_byte_ascii (u : Z) :
  0 <= u < 128 -> 0 <= to_ascii_uppercase_byte u < 128.
Proof.
  unfold to_ascii_uppercase_byte.
  destruct ((97 <=? u) && (u <=? 122)) eqn:E; [|auto].
  apply andb_true_iff in E as [E1 E2]. apply Z.leb_le in E1, E2. lia.
Qed.

(** Entries of the loaded dictionary are upper-cased ASCII text without a
    line break. *)
Lemma from_path_text_entry (text w : str) :
  In w (from_path_text text) ->
  is_ascii w = true /\ ~ In 10 w
  /\ exists l, In l (lines text) /\ (5 <= length l)%nat /\ is_ascii l = true
              /\ w = to_ascii_uppercase l.
Proof.
  unfold from_path_text. intro H.
  apply from_words_In in H as [l [Hl [H5 [Ha ->]]]].
  assert (Hn : ~ In 10 l).
  { pose proof (lines_go_no_newline [] text (fun H => H)) as F.
    rewrite Forall_forall in F. exact (F l Hl). }
  split; [|split; [|exists l; auto]].
  - unfold is_ascii, to_ascii_uppercase in *. rewrite forallb_forall in *.
    intros v Hv. apply in_map_iff in Hv as [x [<- Hx]].
    unfold to_ascii_uppercase_byte.
    specialize (Ha x Hx). apply Z.ltb_lt in Ha. apply Z.ltb_lt.
    destruct ((97 <=? x) && (x <=? 122)); lia.
  - unfold to_ascii_uppercase. intro Hv. apply in_map_iff in Hv as [x [Hx Hxl]].
    unfold to_ascii_uppercase_byte in Hx.
    destruct ((97 <=? x) && (x <=? 122)) eqn:E.
    + apply andb_true_iff in E as [E1 E2]. apply Z.leb_le in E1, E2. lia.
    + subst. contradiction.
Qed.

(** ** Lemmas: compiling and matching the shape *)

Lemma build_expr_masked (m : str) :
  Forall (fun u => u = 42 \/ 65 <= u <= 90) m ->
  build_expr m = Some (map masked_atom m).
Proof.
  unfold build_expr. induction 1 as [|u m Hu Hm IH]; [reflexivity|].
  simpl. rewrite IH. unfold build_expr_byte, masked_atom.
  destruct (Z.eqb_spec u 42) as [->|Hne]; [reflexivity|].
  destruct Hu as [Hu|Hu]; [contradiction|].
  unfold to_ascii_uppercase_byte.
  replace ((97 <=? u) && (u <=? 122)) with false
    by (symmetry; apply andb_false_iff; left; apply Z.leb_gt; lia).
  replace (u =? 46) with false by (symmetry; apply Z.eqb_neq; lia).
  unfold regex_literal_byte.
  replace ((65 <=? u) && (u <=? 90)) with true
    by (symmetry; apply andb_true_iff; split; apply Z.leb_le; lia).
  rewrite orb_true_r, orb_true_l. reflexivity.
Qed.

Lemma match_here_short (re : Regex) (t : str) :
  (length t < length re)%nat -> match_here re t = false.
Proof.
  revert t. induction re as [|a re IH]; intros t H; simpl in *; [lia|].
  destruct t as [|u t]; [reflexivity|].
  simpl in H. rewrite IH by lia. apply andb_false_r.
Qed.

Lemma is_match_short (re : Regex) (t : str) :
  (length t < length re)%nat -> is_match re t = false.
Proof.
  induction t as [|u t IH]; intro H.
  - simpl. destruct re; [simpl in H; lia|reflexivity].
  - cbn [is_match]. rewrite match_here_short by exact H.
    apply IH. simpl in H. lia.
Qed.

(** A search at every offset. *)
Lemma is_match_skipn (re : Regex) (t : str) :
  is_match re t = true <->
  exists i, (i <= length t)%nat /\ match_here re (skipn i t) = true.
Proof.
  induction t as [|u t IH]; simpl.
  - rewrite orb_false_r. split.
    + intro H. exists 0%nat. auto.
    + intros [i [Hi H]]. destruct i; [exact H|lia].
  - rewrite orb_true_iff, IH. split.
    + intros [H | [i [Hi H]]].
      * exists 0%nat. split; [lia|exact H].
      * exists (S i). split; [lia|exact H].
    + intros [[|i] [Hi H]]; [left; exact H|right].
      exists i. split; [lia|exact H].
Qed.

(** On text without a line break, the compiled masked word matches at the
    start exactly when every revealed byte is in place. *)
Lemma match_here_masked (m w : str) :
  Forall (fun u => u = 42 \/ 65 <= u <= 90) m -> ~ In 10 w ->
  match_here (map masked_atom m) w = true <->
  (length m <= length w)%nat /\
  (forall i u, nth_error m i = Some u -> u <> 42 -> nth_error w i = Some u).
Proof.
  intros Hm. revert w. induction Hm as [|a m Ha Hm IH]; intros w Hw.
  - simpl. split; [|reflexivity]. intros _. split; [lia|].
    intros [|i] u H; discriminate H.
  - destruct w as [|b w]; simpl.
    + split; [discriminate|]. intros [H _]. lia.
    + assert (Hw' : ~ In 10 w) by (intro H; apply Hw; now right).
      rewrite andb_true_iff, IH by exact Hw'.
      assert (Hb : b <> 10) by (intro H; apply Hw; now left).
      unfold masked_atom, atom_matches.
      destruct (Z.eqb_spec a 42) as [->|Hne].
      * apply Z.eqb_neq in Hb. rewrite Hb. simpl. split.
        -- intros [_ [Hl Hi]]. split; [lia|].
           intros [|i] u Hu Hu'; [simpl in *; congruence|exact (Hi i u Hu Hu')].
        -- intros [Hl Hi]. split; [reflexivity|]. split; [lia|].
           intros i u Hu Hu'. exact (Hi (S i) u Hu Hu').
      * split.
        -- intros [Hab [Hl Hi]]. apply Z.eqb_eq in Hab as ->. split; [lia|].
           intros [|i] u Hu Hu'; [simpl in *; congruence|exact (Hi i u Hu Hu')].
        -- intros [Hl Hi]. split.
           ++ apply Z.eqb_eq. specialize (Hi 0%nat a eq_refl Hne). simpl in Hi. congruence.
           ++ split; [lia|]. intros i u Hu Hu'. exact (Hi (S i) u Hu Hu').
Qed.

Lemma forallb_disallow (dis w : list Z) :
  forallb (fun u => negb (contains dis u)) w = true <-> (forall u, In u w -> ~ In u dis).
Proof.
  rewrite forallb_forall. unfold contains. split.
  - intros H u Hu Hd. specialize (H u Hu).
    apply negb_true_iff in H.
    assert (E : existsb (Z.eqb u) dis = true)
      by (apply existsb_exists; exists u; split; [exact Hd|apply Z.eqb_refl]).
    congruence.
  - intros H u Hu. apply negb_true_iff, not_true_iff_false.
    rewrite existsb_exists. intros [x [Hx Hux]]. apply Z.eqb_eq in Hux. subst x.
    exact (H u Hu Hx).
Qed.

Lemma is_match_same_length (re : Regex) (t : str) :
  length t = length re -> is_match re t = match_here re t.
Proof.
  intro H. destruct t as [|u t]; cbn [is_match].
  - apply orb_false_r.
  - rewrite is_match_short by (simpl in H; lia). apply orb_false_r.
Qed.

Lemma In_skipn {A : Type} (n : nat) (l : list A) (x : A) :
  In x (skipn n l) -> In x l.
Proof.
  intro H. rewrite <- (firstn_skipn n l). apply in_or_app. now right.
Qed.

(** ** Lemmas: the frequency tally *)

Lemma tally_get_entry_incr (u k : Z) (m : list (Z * nat)) :
  tally_get (entry_incr u m) k = if u =? k then S (tally_get m k) else tally_get m k.
Proof.
  induction m as [|[k' v] m IH]; simpl.
  - destruct (u =? k); reflexivity.
  - destruct (Z.eqb_spec k' u) as [->|Hne]; simpl.
    + destruct (u =? k); reflexivity.
    + rewrite IH. destruct (Z.eqb_spec k' k) as [->|Hk]; [|reflexivity].
      destruct (Z.eqb_spec u k); [congruence|reflexivity].
Qed.

Lemma tally_get_fold (bs : list Z) (m : list (Z * nat)) (k : Z) :
  tally_get (fold_left (fun m u => entry_incr u m) bs m) k
  = (tally_get m k + count_occ Z.eq_dec bs k)%nat.
Proof.
  revert m. induction bs as [|u bs IH]; intro m; simpl; [lia|].
  rewrite IH, tally_get_entry_incr.
  destruct (Z.eqb_spec u k); destruct (Z.eq_dec u k); try congruence; lia.
Qed.

(** Every occurrence of a byte is counted. *)
Lemma tally_get_count (bs : list Z) (k : Z) :
  tally_get (tally bs) k = count_occ Z.eq_dec bs k.
Proof. unfold tally. rewrite tally_get_fold. reflexivity. Qed.

Lemma entry_incr_keys (u k : Z) (v : nat) (m : list (Z * nat)) :
  In (k, v) (entry_incr u m) -> k = u \/ In k (map fst m).
Proof.
  induction m as [|[k' v'] m IH]; simpl.
  - intros [H|[]]. inversion H. now left.
  - destruct (k' =? u).
    + intros [H|H]; [inversion H; subst; now right; left|].
      right. right. apply in_map_iff. exists (k, v). auto.
    + intros [H|H]; [inversion H; subst; now right; left|].
      destruct (IH H) as [E|E]; [now left|now right; right].
Qed.

Lemma entry_incr_nodup (u : Z) (m : list (Z * nat)) :
  NoDup (map fst m) -> NoDup (map fst (entry_incr u m)).
Proof.
  induction m as [|[k v] m IH]; simpl; intro H.
  - constructor; [intros []|constructor].
  - inversion H as [|? ? Hk Hm]; subst.
    destruct (Z.eqb_spec k u); simpl; [constructor; auto|].
    constructor; [|now apply IH].
    intro Hin. apply in_map_iff in Hin as [[k' v'] [Hk' Hin]]. simpl in Hk'. subst k'.
    destruct (entry_incr_keys u k v' m Hin); contradiction.
Qed.

Lemma tally_fold_keys (bs : list Z) (m : list (Z * nat)) (k : Z) (v : nat) :
  In (k, v) (fold_left (fun m u => entry_incr u m) bs m) -> In k (map fst m) \/ In k bs.
Proof.
  revert m. induction bs as [|u bs IH]; intros m H; simpl in *.
  { left. apply in_map_iff. exists (k, v). auto. }
  destruct (IH _ H) as [E|E]; [|now right; right].
  apply in_map_iff in E as [[k' v'] [Hk' E]]. simpl in Hk'. subst k'.
  destruct (entry_incr_keys u k v' m E) as [->|E']; [now right; left|now left].
Qed.

(** Keys of the tally are bytes of its input. *)
Lemma tally_keys (bs : list Z) (k : Z) (v : nat) : In (k, v) (tally bs) -> In k bs.
Proof.
  unfold tally. intro H. destruct (tally_fold_keys bs [] k v H) as [[]|E]; exact E.
Qed.

Lemma tally_nodup (bs : list Z) : NoDup (map fst (tally bs)).
Proof.
  unfold tally. assert (H0 : NoDup (map fst (@nil (Z * nat)))) by constructor.
  revert H0. generalize (@nil (Z * nat)).
  induction bs as [|u bs IH]; intros m Hm; simpl; [exact Hm|].
  apply IH. now apply entry_incr_nodup.
Qed.

Lemma tally_get_In (m : list (Z * nat)) (k : Z) (v : nat) :
  NoDup (map fst m) -> In (k, v) m -> tally_get m k = v.
Proof.
  induction m as [|[k' v'] m IH]; simpl; [intros _ []|].
  intros Hnd [H|H]; inversion Hnd as [|? ? Hk Hm]; subst.
  - inversion H; subst. now rewrite Z.eqb_refl.
  - destruct (Z.eqb_spec k' k) as [->|Hne]; [|now apply IH].
    exfalso. apply Hk. apply in_map_iff. exists (k, v). auto.
Qed.

Lemma tally_get_pos_In (m : list (Z * nat)) (k : Z) :
  (0 < tally_get m k)%nat -> In (k, tally_get m k) m.
Proof.
  induction m as [|[k' v'] m IH]; simpl; [lia|].
  destruct (Z.eqb_spec k' k) as [->|Hne]; intro H; [now left|right; now apply IH].
Qed.

Lemma count_occ_flat_map (l : list str) (w : str) (u : Z) :
  In w l -> (count_occ Z.eq_dec w u <= count_occ Z.eq_dec (flat_map (fun x => x) l) u)%nat.
Proof.
  induction l as [|x l IH]; simpl; [intros []|].
  rewrite count_occ_app. intros [->|H]; [lia|]. specialize (IH H). lia.
Qed.

(** ** Dictionary filtering and loading *)

(** C1: for a well-formed masked word [m] (upper-case letters and the
    wildcard ['*']) and an entry [w] of the loaded dictionary with the length
    of [m], [w] survives the filter of [next] exactly when every revealed
    byte of [m] is at the same position in [w] and no byte of [w] is in the
    disallowed set of the turn (after reconciliation). *)
Theorem shape_filter_correct (st : SolverState) (text m w : str) (re : Regex) :
  Forall (fun u => u = 42 \/ 65 <= u <= 90) m ->
  build_expr m = Some re ->
  In w (from_path_text text) ->
  length w = length m ->
  In w (filtered_dictionary (characterize st m) re (from_path_text text)) <->
  (forall i u, nth_error m i = Some u -> u <> 42 -> nth_error w i = Some u) /\
  (forall u, In u w -> ~ In u (disallow (characterize st m))).
Proof.
  intros Hm Hre Hw Hlen.
  rewrite build_expr_masked in Hre by exact Hm. injection Hre as <-.
  destruct (from_path_text_entry text w Hw) as [_ [Hnl _]].
  unfold filtered_dictionary, Shape_filter, shape_of. rewrite filter_In. simpl.
  rewrite andb_true_iff, forallb_disallow.
  rewrite is_match_same_length by (rewrite length_map; exact Hlen).
  rewrite match_here_masked by assumption.
  split.
  - intros [_ [[_ Hpos] Hdis]]. split; assumption.
  - intros [Hpos Hdis]. split; [exact Hw|]. split; [split; [lia|exact Hpos]|exact Hdis].
Qed.

(** C9: the loaded dictionary is, up to order and with multiplicity, the
    upper-cased ASCII entries of length at least 5; an entry is in it exactly
    when it is the upper-cased form of such an input entry. *)
Theorem from_words_exact (words : list str) :
  Permutation (from_words words)
    (map to_ascii_uppercase
       (filter (fun w => Nat.leb 5 (length w) && is_ascii w) words)) /\
  (forall x, In x (from_words words) <->
     exists w, In w words /\ (5 <= length w)%nat /\ is_ascii w = true
               /\ x = to_ascii_uppercase w).
Proof.
  split; [apply from_words_perm|apply from_words_In].
Qed.

(** C10: the shape is searched anywhere in the word.  An entry longer than
    the masked word survives the filter as soon as the revealed bytes of [m]
    line up at some offset [i] and it has no disallowed byte; all its bytes
    are then counted in the frequency tally. *)
Theorem unanchored_shape (st : SolverState) (text m w : str) (re : Regex) (i : nat) :
  Forall (fun u => u = 42 \/ 65 <= u <= 90) m ->
  build_expr m = Some re ->
  In w (from_path_text text) ->
  (length m < length w)%nat ->
  (i + length m <= length w)%nat ->
  (forall j u, nth_error m j = Some u -> u <> 42 -> nth_error w (i + j) = Some u) ->
  (forall u, In u w -> ~ In u (disallow (characterize st m))) ->
  In w (filtered_dictionary (characterize st m) re (from_path_text text)) /\
  (forall u, (count_occ Z.eq_dec w u
              <= tally_get (frequency_of (characterize st m) re (from_path_text text)) u)%nat).
Proof.
  intros Hm Hre Hw _ Hi Hpos Hdis.
  rewrite build_expr_masked in Hre by exact Hm. injection Hre as <-.
  destruct (from_path_text_entry text w Hw) as [_ [Hnl _]].
  assert (Hin : In w (filtered_dictionary (characterize st m) (map masked_atom m)
                        (from_path_text text))).
  { unfold filtered_dictionary, Shape_filter, shape_of. rewrite filter_In. simpl.
    split; [exact Hw|]. rewrite andb_true_iff, forallb_disallow. split; [|exact Hdis].
    apply is_match_skipn. exists i. split; [lia|].
    apply match_here_masked; [exact Hm| |].
    - intro H. apply Hnl. exact (In_skipn i w 10 H).
    - split; [rewrite length_skipn; lia|].
      intros j u Hj Hu. rewrite nth_error_skipn. exact (Hpos j u Hj Hu). }
  split; [exact Hin|].
  intro u. unfold frequency_of. rewrite tally_get_count.
  now apply count_occ_flat_map.
Qed.

(** ** Lemmas: the history *)

Lemma contains_In (s : list Z) (u : Z) : contains s u = true <-> In u s.
Proof.
  unfold contains. rewrite existsb_exists. split.
  - intros [x [Hx E]]. apply Z.eqb_eq in E. now subst.
  - intro H. exists u. split; [exact H|apply Z.eqb_refl].
Qed.

Lemma hs_insert_In (s : list Z) (u k : Z) : In k (hs_insert s u) <-> k = u \/ In k s.
Proof.
  unfold hs_insert. destruct (contains s u) eqn:E.
  - apply contains_In in E. split; [now right|intros [->|H]; assumption].
  - simpl. split; intros [H|H]; auto.
Qed.

Lemma existsb_eq_In (u : Z) (word : str) :
  existsb (fun uword => u =? uword) word = true <-> In u word.
Proof.
  rewrite existsb_exists. split.
  - intros [x [Hx E]]. apply Z.eqb_eq in E. now subst.
  - intro H. exists u. split; [exact H|apply Z.eqb_refl].
Qed.

(** [next] only sets the pending letter and the generator. *)
Lemma next_history (st : SolverState) (word : str) (d : list str) (u : Z) (st' : SolverState) :
  next st word d = Some (u, st') ->
  submitted st' = submitted (characterize st word) /\
  disallow st' = disallow (characterize st word) /\
  uncharacterized st' = Some u.
Proof.
  unfold next. destruct (build_expr word) as [re|]; [|discriminate].
  destruct (slice_choose _ _) as [[[v|] r]|]; [| |discriminate].
  - intro H. injection H as <- <-. auto.
  - destruct (iter_choose alphabet r) as [[v|] r']; [|discriminate].
    intro H. injection H as <- <-. auto.
Qed.

Lemma characterize_history (st : SolverState) (word : str) :
  incl (submitted st) (submitted (characterize st word)) /\
  incl (disallow st) (disallow (characterize st word)) /\
  (incl (disallow st) (submitted st) ->
   incl (disallow (characterize st word)) (submitted (characterize st word))) /\
  uncharacterized (characterize st word) = None /\
  (forall x, uncharacterized st = Some x -> In x (submitted (characterize st word))).
Proof.
  unfold characterize. destruct (uncharacterized st) as [u|] eqn:E; simpl.
  - repeat split.
    + intros k Hk. apply hs_insert_In. now right.
    + intros k Hk. destruct (existsb _ word); [exact Hk|]. apply hs_insert_In. now right.
    + intros Hinc k Hk. apply hs_insert_In.
      destruct (existsb _ word); [right; now apply Hinc|].
      apply hs_insert_In in Hk as [->|Hk]; [now left|right; now apply Hinc].
    + intros x Hx. injection Hx as <-. apply hs_insert_In. now left.
  - repeat split; try (intros k Hk; exact Hk); auto. intros x Hx. discriminate.
Qed.

(** C3: a pending letter [u] is reconciled at the start of [next]: it goes
    into [submitted], and into [disallow] exactly when the supplied masked
    word does not contain it; the selection keeps these sets.  For ['Z']
    (90) and a masked word without ['Z'], ['Z'] ends in both sets. *)
Theorem characterize_pending (st : SolverState) (word : str) (u : Z) :
  uncharacterized st = Some u ->
  uncharacterized (characterize st word) = None /\
  (forall k, In k (submitted (characterize st word)) <-> k = u \/ In k (submitted st)) /\
  (forall k, In k (disallow (characterize st word)) <->
             (k = u /\ ~ In u word) \/ In k (disallow st)) /\
  (u = 90 -> ~ In 90 word ->
   In 90 (submitted (characterize st word)) /\ In 90 (disallow (characterize st word))) /\
  (forall d v st', next st word d = Some (v, st') ->
   submitted st' = submitted (characterize st word) /\
   disallow st' = disallow (characterize st word)).
Proof.
  intro Hu.
  assert (Hsub : forall k, In k (submitted (characterize st word)) <-> k = u \/ In k (submitted st)).
  { intro k. unfold characterize. rewrite Hu. simpl. apply hs_insert_In. }
  assert (Hdis : forall k, In k (disallow (characterize st word)) <->
                           (k = u /\ ~ In u word) \/ In k (disallow st)).
  { intro k. unfold characterize. rewrite Hu. simpl.
    destruct (existsb (fun uword => u =? uword) word) eqn:E.
    - apply existsb_eq_In in E. split; [now right|]. intros [[_ H]|H]; [contradiction|exact H].
    - rewrite hs_insert_In. assert (Hw : ~ In u word) by (rewrite <- existsb_eq_In; congruence).
      split; intros [H|H]; auto. left. destruct H; assumption. }
  split; [unfold characterize; now rewrite Hu|].
  split; [exact Hsub|]. split; [exact Hdis|]. split.
  - intros -> Hz. split; [apply Hsub; now left|apply Hdis; left; now split].
  - intros d v st' H. destruct (next_history st word d v st' H) as [H1 [H2 _]]. now split.
Qed.

(** C6: the history only grows, [disallow] stays inside [submitted]
    (from the empty history of [SolverState_default] on), the pending slot
    is emptied by reconciliation — its letter folded into [submitted] — and
    refilled with the selection; along any run of turns likewise. *)
Theorem history_invariant :
  incl (disallow SolverState_default) (submitted SolverState_default) /\
  (forall st w d u st',
     incl (disallow st) (submitted st) ->
     next st w d = Some (u, st') ->
     incl (submitted st) (submitted st') /\ incl (disallow st) (disallow st') /\
     incl (disallow st') (submitted st') /\
     uncharacterized (characterize st w) = None /\
     (forall x, uncharacterized st = Some x -> In x (submitted st')) /\
     uncharacterized st' = Some u) /\
  (forall st ws d us st',
     incl (disallow st) (submitted st) ->
     run st ws d = Some (us, st') ->
     incl (submitted st) (submitted st') /\ incl (disallow st) (disallow st') /\
     incl (disallow st') (submitted st')).
Proof.
  assert (Step : forall st w d u st',
     incl (disallow st) (submitted st) ->
     next st w d = Some (u, st') ->
     incl (submitted st) (submitted st') /\ incl (disallow st) (disallow st') /\
     incl (disallow st') (submitted st') /\
     uncharacterized (characterize st w) = None /\
     (forall x, uncharacterized st = Some x -> In x (submitted st')) /\
     uncharacterized st' = Some u).
  { intros st w d u st' Hinv H.
    destruct (next_history st w d u st' H) as [Hs [Hd Hp]].
    destruct (characterize_history st w) as [C1 [C2 [C3 [C4 C5]]]].
    rewrite Hs, Hd. repeat split; auto. }
  split; [intros k []|]. split; [exact Step|].
  intros st ws d. revert st. induction ws as [|w ws IH]; intros st us st' Hinv H; simpl in H.
  - injection H as <- <-. repeat split; try (intros k Hk; exact Hk). exact Hinv.
  - destruct (next st w d) as [[u st1]|] eqn:E1; [|discriminate].
    destruct (run st1 ws d) as [[us' st2]|] eqn:E2; [|discriminate].
    injection H as <- <-.
    destruct (Step st w d u st1 Hinv E1) as [A1 [A2 [A3 _]]].
    destruct (IH st1 us' st2 A3 E2) as [B1 [B2 B3]].
    repeat split; [apply (incl_tran A1 B1)|apply (incl_tran A2 B2)|exact B3].
Qed.

(** ** Lemmas: ranking and choosing *)

Lemma insert_by_freq_perm (e : Z * nat) (l : list (Z * nat)) :
  Permutation (insert_by_freq e l) (e :: l).
Proof.
  induction l as [|e' l IH]; simpl; [reflexivity|].
  destruct (Nat.leb (snd e') (snd e)); [reflexivity|].
  rewrite IH. apply perm_swap.
Qed.

Lemma sort_by_reverse_freq_perm (l : list (Z * nat)) :
  Permutation (sort_by_reverse_freq l) l.
Proof.
  induction l as [|e l IH]; simpl; [reflexivity|].
  rewrite insert_by_freq_perm. now apply perm_skip.
Qed.

(** The head of the sorted list carries the largest count. *)
Lemma sort_by_reverse_freq_head (l : list (Z * nat)) :
  match sort_by_reverse_freq l with
  | [] => l = []
  | e0 :: _ => forall e, In e l -> (snd e <= snd e0)%nat
  end.
Proof.
  induction l as [|x l IH]; simpl; [reflexivity|].
  destruct (sort_by_reverse_freq l) as [|e0 r] eqn:E.
  - subst l. simpl. intros e [<-|[]]. lia.
  - simpl. destruct (Nat.leb (snd e0) (snd x)) eqn:Hle.
    + apply Nat.leb_le in Hle. intros e [<-|He]; [lia|]. specialize (IH e He). lia.
    + apply Nat.leb_gt in Hle. intros e [<-|He]; [lia|]. exact (IH e He).
Qed.

Lemma first_rank_go_key {A : Type} (f : A -> nat) (k : nat) (l : list A) (x : A) :
  In x (first_rank_go f (Some k) l) -> f x = k /\ In x l.
Proof.
  induction l as [|y l IH]; simpl; [intros []|].
  destruct (Nat.eqb_spec k (f y)) as [Hk|Hk].
  - intros [<-|H]; [auto|]. destruct (IH H). auto.
  - intro H. destruct (IH H). auto.
Qed.

Lemma first_rank_by_key_In {A : Type} (f : A -> nat) (e0 : A) (l : list A) (x : A) :
  In x (first_rank_by_key (e0 :: l) f) -> f x = f e0 /\ In x (e0 :: l).
Proof.
  unfold first_rank_by_key. simpl. intros [<-|H]; [auto|].
  destruct (first_rank_go_key f (f e0) l x H). simpl; auto.
Qed.

Lemma slice_choose_cons {A : Type} (l : list A) (r : R) :
  l <> [] -> exists a r', slice_choose l r = Some (Some a, r') /\ In a l.
Proof.
  intro Hl. unfold slice_choose. destruct l as [|x l']; [contradiction|].
  pose proof (gen_index_lt r (length (x :: l'))) as Hlt.
  destruct (gen_index r (length (x :: l'))) as [i r'] eqn:E. simpl in Hlt.
  assert (Hi : (i < length (x :: l'))%nat) by (simpl; apply Hlt; lia).
  destruct (nth_error (x :: l') i) as [a|] eqn:En.
  - exists a, r'. split; [reflexivity|]. eapply nth_error_In. exact En.
  - apply nth_error_None in En. lia.
Qed.

Lemma nth_error_alphabet (i : nat) :
  (i < 26)%nat -> nth_error alphabet i = Some (65 + Z.of_nat i).
Proof.
  intro H. unfold alphabet. rewrite nth_error_map.
  do 26 (destruct i as [|i]; [reflexivity|]). lia.
Qed.

(** The two ways [next] selects: from a non-empty tie-break set, or by the
    alphabet fallback at index [gen_index rng 26]. *)
Lemma next_select (st : SolverState) (word : str) (d : list str) (re : Regex) :
  build_expr word = Some re ->
  (first_rank_of (characterize st word) re d <> [] ->
   exists u r', next st word d = Some (u, record_selection (characterize st word) u r')
                /\ In u (first_rank_of (characterize st word) re d)) /\
  (first_rank_of (characterize st word) re d = [] ->
   (fst (gen_index (rng (characterize st word)) 26) < 26)%nat /\
   next st word d =
     Some (65 + Z.of_nat (fst (gen_index (rng (characterize st word)) 26)),
           record_selection (characterize st word)
             (65 + Z.of_nat (fst (gen_index (rng (characterize st word)) 26)))
             (snd (gen_index (rng (characterize st word)) 26)))).
Proof.
  intro Hre. unfold next. rewrite Hre. split.
  - intro Hne. destruct (slice_choose_cons _ (rng (characterize st word)) Hne)
      as [a [r' [E Ha]]].
    rewrite E. exists a, r'. auto.
  - intro He. rewrite He. simpl.
    pose proof (gen_index_lt (rng (characterize st word)) 26) as Hlt.
    unfold iter_choose, alphabet at 1. simpl.
    destruct (gen_index (rng (characterize st word)) 26) as [i r'] eqn:E. simpl in Hlt |- *.
    assert (Hi : (i < 26)%nat) by (apply Hlt; lia).
    fold alphabet. rewrite nth_error_alphabet by exact Hi. auto.
Qed.

(** What a member of the tie-break set is: an unsubmitted byte of the
    tally with the largest count among the unsubmitted ones. *)
Lemma first_rank_max (st : SolverState) (re : Regex) (d : list str) (u : Z) :
  In u (first_rank_of st re d) ->
  contains (submitted st) u = false /\
  (0 < tally_get (frequency_of st re d) u)%nat /\
  In u (flat_map (fun w => w) (filtered_dictionary st re d)) /\
  (forall k, contains (submitted st) k = false ->
     (tally_get (frequency_of st re d) k <= tally_get (frequency_of st re d) u)%nat).
Proof.
  unfold first_rank_of, by_frequency_of.
  set (freq := frequency_of st re d).
  set (F := filter (fun entry => negb (contains (submitted st) (fst entry))) (hash_iter freq)).
  pose proof (sort_by_reverse_freq_head F) as Hhead.
  pose proof (sort_by_reverse_freq_perm F) as Hperm.
  destruct (sort_by_reverse_freq F) as [|e0 rest] eqn:ES; [intros []|].
  intro Hu. apply in_map_iff in Hu as [[u' c] [Hu' Hin]]. simpl in Hu'. subst u'.
  apply first_rank_by_key_In in Hin as [Hc Hin]. simpl in Hc.
  apply (Permutation_in _ Hperm) in Hin.
  unfold F in Hin. apply filter_In in Hin as [Hin Hns]. simpl in Hns.
  apply negb_true_iff in Hns.
  apply (Permutation_in _ (hash_iter_perm freq)) in Hin.
  assert (Hkey : In u (flat_map (fun w => w) (filtered_dictionary st re d)))
    by exact (tally_keys _ u c Hin).
  assert (Hcu : tally_get freq u = c) by (apply tally_get_In; [apply tally_nodup|exact Hin]).
  split; [exact Hns|]. split.
  { unfold freq, frequency_of. rewrite tally_get_count. apply count_occ_In. exact Hkey. }
  split; [exact Hkey|].
  intros k Hk. rewrite Hcu, Hc.
  destruct (tally_get freq k) as [|v] eqn:Ev; [lia|].
  assert (Hk' : In (k, S v) F).
  { unfold F. apply filter_In. split; [|simpl; now rewrite Hk].
    apply (Permutation_in _ (Permutation_sym (hash_iter_perm freq))).
    rewrite <- Ev. apply tally_get_pos_In. lia. }
  exact (Hhead _ Hk').
Qed.

Lemma filter_all_false {A : Type} (p : A -> bool) (l : list A) :
  (forall x, In x l -> p x = false) -> filter p l = [].
Proof.
  induction l as [|x l IH]; simpl; intro H; [reflexivity|].
  rewrite (H x (or_introl eq_refl)). apply IH. auto.
Qed.

(** ** Selection *)

(** C2: the tally counts every occurrence of a byte over all filtered
    words; once the letters of [submitted] are removed, if some tallied
    letter remains, [next] returns an unsubmitted letter whose count is the
    largest remaining count (a member of the tie-break set). *)
Theorem selection_in_tie_break_set
    (st : SolverState) (word : str) (d : list str) (re : Regex) :
  build_expr word = Some re ->
  (forall k, tally_get (frequency_of (characterize st word) re d) k
             = count_occ Z.eq_dec
                 (flat_map (fun w => w) (filtered_dictionary (characterize st word) re d)) k) /\
  (forall u st',
     (exists k, contains (submitted (characterize st word)) k = false /\
                (0 < tally_get (frequency_of (characterize st word) re d) k)%nat) ->
     next st word d = Some (u, st') ->
     In u (first_rank_of (characterize st word) re d) /\
     contains (submitted (characterize st word)) u = false /\
     (forall k, contains (submitted (characterize st word)) k = false ->
        (tally_get (frequency_of (characterize st word) re d) k
         <= tally_get (frequency_of (characterize st word) re d) u)%nat)).
Proof.
  intro Hre. split; [intro k; apply tally_get_count|].
  intros u st' [k [Hk Hpos]] Hnext.
  set (st1 := characterize st word) in *.
  assert (Hne : first_rank_of st1 re d <> []).
  { unfold first_rank_of, by_frequency_of.
    set (F := filter (fun entry => negb (contains (submitted st1) (fst entry)))
                (hash_iter (frequency_of st1 re d))).
    assert (HF : In (k, tally_get (frequency_of st1 re d) k) F).
    { unfold F. apply filter_In. split; [|simpl; now rewrite Hk].
      apply (Permutation_in _ (Permutation_sym (hash_iter_perm _))).
      now apply tally_get_pos_In. }
    pose proof (sort_by_reverse_freq_head F) as Hhead.
    destruct (sort_by_reverse_freq F) as [|e0 rest]; [subst F; rewrite Hhead in HF; destruct HF|].
    discriminate. }
  destruct (proj1 (next_select st word d re Hre) Hne) as [v [r' [Ev Hv]]].
  rewrite Hnext in Ev. injection Ev as <- _.
  destruct (first_rank_max st1 re d u Hv) as [H1 [_ [_ H4]]].
  auto.
Qed.

(** C4, as the code does it: with the earlier selections [prev] all
    reconciled or pending, a letter drawn from a non-empty tie-break set is
    none of them, and the new selections are again reconciled or pending.
    (Only the alphabet fallback may repeat a letter.) *)
Theorem ranked_selection_fresh
    (st : SolverState) (word : str) (d : list str) (re : Regex)
    (prev : list Z) (u : Z) (st' : SolverState) :
  (forall x, In x prev -> In x (submitted st) \/ uncharacterized st = Some x) ->
  build_expr word = Some re ->
  first_rank_of (characterize st word) re d <> [] ->
  next st word d = Some (u, st') ->
  ~ In u prev /\
  (forall x, In x (u :: prev) -> In x (submitted st') \/ uncharacterized st' = Some x).
Proof.
  intros Hprev Hre Hne Hnext.
  destruct (characterize_history st word) as [C1 [_ [_ [_ C5]]]].
  assert (Hall : forall x, In x prev -> In x (submitted (characterize st word))).
  { intros x Hx. destruct (Hprev x Hx) as [H|H]; [now apply C1|now apply C5]. }
  destruct (proj1 (next_select st word d re Hre) Hne) as [v [r' [Ev Hv]]].
  rewrite Hnext in Ev. injection Ev as <- ->.
  destruct (first_rank_max _ re d u Hv) as [Hns _].
  split.
  - intro Hu. apply Hall, contains_In in Hu. congruence.
  - intros x [<-|Hx]; [right; reflexivity|left; exact (Hall x Hx)].
Qed.

(** C5, as the code does it: the returned character is ASCII; it is an
    upper-case letter or a byte of a (filtered) dictionary entry, hence an
    upper-case letter whenever the dictionary entries are made of letters. *)
Theorem selection_ascii (st : SolverState) (m text : str) (u : Z) (st' : SolverState) :
  Forall (fun b => 0 <= b <= 255) text ->
  next st m (from_path_text text) = Some (u, st') ->
  0 <= u < 128 /\
  ((65 <= u <= 90) \/ exists w, In w (from_path_text text) /\ In u w) /\
  ((forall w b, In w (from_path_text text) -> In b w -> 65 <= b <= 90) -> 65 <= u <= 90).
Proof.
  intros Htext Hnext.
  destruct (build_expr m) as [re|] eqn:Hre;
    [|unfold next in Hnext; rewrite Hre in Hnext; discriminate].
  assert (Hsrc : (65 <= u <= 90) \/ exists w, In w (from_path_text text) /\ In u w).
  { destruct (first_rank_of (characterize st m) re (from_path_text text)) eqn:Hfr.
    - destruct (proj2 (next_select st m _ re Hre) Hfr) as [Hi E].
      rewrite Hnext in E.
      assert (Hu : u = 65 + Z.of_nat (fst (gen_index (rng (characterize st m)) 26)))
        by congruence.
      rewrite Hu. left. lia.
    - assert (Hne : first_rank_of (characterize st m) re (from_path_text text) <> [])
        by (rewrite Hfr; discriminate).
      destruct (proj1 (next_select st m _ re Hre) Hne) as [v [r' [Ev Hv]]].
      rewrite Hnext in Ev. injection Ev as <- _.
      destruct (first_rank_max _ re _ u Hv) as [_ [_ [Hin _]]].
      apply in_flat_map in Hin as [w [Hw Hu]].
      unfold filtered_dictionary in Hw. apply filter_In in Hw as [Hw _].
      right. exists w. auto. }
  split; [|split; [exact Hsrc|]].
  - destruct Hsrc as [H|[w [Hw Hu]]]; [lia|].
    destruct (from_path_text_entry text w Hw) as [Ha _].
    unfold is_ascii in Ha. rewrite forallb_forall in Ha. specialize (Ha u Hu).
    apply Z.ltb_lt in Ha.
    destruct (from_path_text_entry text w Hw) as [_ [_ [l [Hl [_ [_ ->]]]]]].
    unfold to_ascii_uppercase in Hu. apply in_map_iff in Hu as [x [<- Hx]].
    assert (Hxt : In x text).
    { destruct (lines_go_sub [] text l x Hl Hx) as [[]|H]; exact H. }
    rewrite Forall_forall in Htext. specialize (Htext x Hxt).
    unfold to_ascii_uppercase_byte in *. destruct ((97 <=? x) && (x <=? 122)) eqn:E.
    + apply andb_true_iff in E as [E1 E2]. apply Z.leb_le in E1, E2. lia.
    + lia.
  - intro Hletters. destruct Hsrc as [H|[w [Hw Hu]]]; [exact H|exact (Hletters w u Hw Hu)].
Qed.

Lemma alphabet_NoDup : NoDup alphabet.
Proof. unfold alphabet. simpl. repeat constructor; simpl; lia. Qed.

(** C7: the tie-break set is empty when the dictionary is, or when every
    tallied letter is already submitted; then [next] does not fail: it
    returns the letter of ['A'..'Z'] at the index [gen_index rng 26] drawn
    by the generator, distinct indices giving distinct letters, so a
    uniform index gives a uniform letter. *)
Theorem fallback_alphabet (st : SolverState) (word : str) (d : list str) (re : Regex) :
  build_expr word = Some re ->
  (d = [] -> first_rank_of (characterize st word) re d = []) /\
  ((forall k, (0 < tally_get (frequency_of (characterize st word) re d) k)%nat ->
              In k (submitted (characterize st word))) ->
   first_rank_of (characterize st word) re d = []) /\
  (first_rank_of (characterize st word) re d = [] ->
   (fst (gen_index (rng (characterize st word)) 26) < 26)%nat /\
   nth_error alphabet (fst (gen_index (rng (characterize st word)) 26))
     = Some (65 + Z.of_nat (fst (gen_index (rng (characterize st word)) 26))) /\
   (exists st', next st word d
                = Some (65 + Z.of_nat (fst (gen_index (rng (characterize st word)) 26)), st')) /\
   length alphabet = 26%nat /\ NoDup alphabet /\
   (forall u, In u alphabet <-> 65 <= u <= 90)).
Proof.
  intro Hre. split; [|split].
  - intros ->. unfold first_rank_of, by_frequency_of.
    replace (frequency_of (characterize st word) re []) with (@nil (Z * nat))
      by reflexivity.
    pose proof (hash_iter_perm []) as Hp.
    apply Permutation_sym, Permutation_nil in Hp. rewrite Hp. reflexivity.
  - intro Hall. unfold first_rank_of, by_frequency_of.
    rewrite filter_all_false; [reflexivity|].
    intros [k v] Hkv. apply (Permutation_in _ (hash_iter_perm _)) in Hkv.
    simpl. apply negb_false_iff, contains_In, Hall.
    pose proof (tally_keys _ k v Hkv) as Hk.
    unfold frequency_of. rewrite tally_get_count. now apply count_occ_In.
  - intro He. destruct (proj2 (next_select st word d re Hre) He) as [Hi E].
    split; [exact Hi|]. split; [now apply nth_error_alphabet|].
    split; [eexists; exact E|]. split; [reflexivity|]. split; [exact alphabet_NoDup|].
    intro u. unfold alphabet. rewrite in_map_iff. split.
    + intros [i [<- Hin]]. apply in_seq in Hin. lia.
    + intro Hu. exists (Z.to_nat (u - 65)). split; [lia|]. apply in_seq. lia.
Qed.

(** C8: on a masked word of upper-case letters and ['*'], [next] never
    panics, whatever the history and the dictionary: the expression
    compiles and a letter is always chosen. *)
Theorem next_total (st : SolverState) (m : str) (d : list str) :
  Forall (fun u => u = 42 \/ 65 <= u <= 90) m ->
  build_expr m <> None /\ exists u st', next st m d = Some (u, st').
Proof.
  intro Hm. pose proof (build_expr_masked m Hm) as Hre.
  split; [rewrite Hre; discriminate|].
  destruct (first_rank_of (characterize st m) (map masked_atom m) d) eqn:Hfr.
  - destruct (proj2 (next_select st m d _ Hre) Hfr) as [_ E]. eauto.
  - assert (Hne : first_rank_of (characterize st m) (map masked_atom m) d <> [])
      by (rewrite Hfr; discriminate).
    destruct (proj1 (next_select st m d _ Hre) Hne) as [u [r' [E _]]]. eauto.
Qed.

End Solver.

Arguments submitted {R}.
Arguments uncharacterized {R}.
Arguments disallow {R}.
Arguments rng {R}.
Arguments Build_SolverState {R}.
Arguments SolverState_default {R}.
Arguments characterize {R}.
Arguments filtered_dictionary {R}.
Arguments frequency_of {R}.
Arguments first_rank_of {R}.
Arguments record_selection {R}.
Arguments next {R}.
Arguments run {R}.
Arguments build_game {R}.
Arguments create_game {R}.
Arguments client_loop {R}.
Arguments consistent {R}.

(** ** The sample generator meets the assumptions *)

Lemma demo_gen_index_lt :
  forall r n, (0 < n)%nat -> (fst (demo_gen_index r n) < n)%nat.
Proof.
  intros r n Hn. unfold demo_gen_index. simpl.
  pose proof (Z.mod_pos_bound r (Z.of_nat n) ltac:(lia)). lia.
Qed.

Lemma demo_hash_iter_perm : forall m, Permutation (demo_hash_iter m) m.
Proof. intro m. reflexivity. Qed.

Example demo_berry :
  option_map fst (next demo_gen_index demo_hash_iter
                    (SolverState_default demo_with_seed) mask5
                    (from_path_text demo_text)) = Some 69.
Proof. vm_compute. reflexivity. Qed.

(** ** Witnesses: the theorems at concrete inputs *)

Lemma shape_filter_correct_witness :
  Forall (fun u => u = 42 \/ 65 <= u <= 90) mask_a_e /\
  build_expr mask_a_e = Some (map masked_atom mask_a_e) /\
  In apple (from_path_text demo_text) /\
  length apple = length mask_a_e /\
  (In apple (filtered_dictionary (characterize (SolverState_default demo_with_seed) mask_a_e)
               (map masked_atom mask_a_e) (from_path_text demo_text)) <->
   (forall i u, nth_error mask_a_e i = Some u -> u <> 42 -> nth_error apple i = Some u) /\
   (forall u, In u apple ->
      ~ In u (disallow (characterize (SolverState_default demo_with_seed) mask_a_e)))).
Proof.
  assert (Hm : Forall (fun u => u = 42 \/ 65 <= u <= 90) mask_a_e)
    by (unfold mask_a_e; repeat (apply Forall_cons; [lia|]); apply Forall_nil).
  assert (Hre : build_expr mask_a_e = Some (map masked_atom mask_a_e)) by reflexivity.
  assert (Hw : In apple (from_path_text demo_text)) by (vm_compute; tauto).
  assert (Hl : length apple = length mask_a_e) by reflexivity.
  split; [exact Hm|]. split; [exact Hre|]. split; [exact Hw|]. split; [exact Hl|].
  exact (shape_filter_correct Z _ demo_text mask_a_e apple _ Hm Hre Hw Hl).
Defined.

Lemma unanchored_shape_witness :
  In [65; 80; 80; 76; 69; 83] (filtered_dictionary
     (characterize (SolverState_default demo_with_seed) mask_a_e)
     (map masked_atom mask_a_e) (from_path_text [65; 80; 80; 76; 69; 83; 10])) /\
  Nat.le (count_occ Z.eq_dec [65; 80; 80; 76; 69; 83] 83)
    (tally_get (frequency_of (characterize (SolverState_default demo_with_seed) mask_a_e)
                  (map masked_atom mask_a_e) (from_path_text [65; 80; 80; 76; 69; 83; 10])) 83).
Proof.
  assert (Hm : Forall (fun u => u = 42 \/ 65 <= u <= 90) mask_a_e)
    by (unfold mask_a_e; repeat (apply Forall_cons; [lia|]); apply Forall_nil).
  assert (Hpos : forall j u, nth_error mask_a_e j = Some u -> u <> 42 ->
                 nth_error ([65; 80; 80; 76; 69; 83] : str) (0 + j)%nat = Some u).
  { intros j u Hj Hu. unfold mask_a_e in Hj.
    do 5 (destruct j as [|j]; [simpl in Hj |- *; injection Hj as <-; first [reflexivity|lia]|]).
    destruct j; simpl in Hj; discriminate. }
  destruct (unanchored_shape Z (SolverState_default demo_with_seed)
              [65; 80; 80; 76; 69; 83; 10] mask_a_e [65; 80; 80; 76; 69; 83]
              (map masked_atom mask_a_e) 0 Hm eq_refl
              ltac:(vm_compute; tauto) ltac:(simpl; lia) ltac:(simpl; lia) Hpos
              ltac:(intros u _ H; exact H)) as [H1 H2].
  split; [exact H1|exact (H2 83)].
Defined.

Lemma characterize_pending_witness :
  uncharacterized (Build_SolverState [] (Some 90) [] 0) = Some 90 /\
  In 90 (submitted (characterize (Build_SolverState [] (Some 90) [] 0) mask5)) /\
  In 90 (disallow (characterize (Build_SolverState [] (Some 90) [] 0) mask5)).
Proof.
  destruct (characterize_pending Z demo_gen_index demo_hash_iter
              (Build_SolverState [] (Some 90) [] 0) mask5 90 eq_refl)
    as [_ [_ [_ [Hz _]]]].
  split; [reflexivity|]. apply Hz; [reflexivity|]. unfold mask5. simpl. lia.
Defined.

Lemma history_invariant_witness :
  exists us st',
    run demo_gen_index demo_hash_iter (SolverState_default demo_with_seed)
        [mask5; mask5] (from_path_text demo_text) = Some (us, st') /\
    incl (submitted (SolverState_default demo_with_seed)) (submitted st') /\
    incl (disallow st') (submitted st').
Proof.
  destruct (history_invariant Z demo_with_seed demo_gen_index demo_hash_iter)
    as [H0 [_ Hrun]].
  destruct (run demo_gen_index demo_hash_iter (SolverState_default demo_with_seed)
              [mask5; mask5] (from_path_text demo_text)) as [[us st']|] eqn:E;
    [|vm_compute in E; discriminate].
  exists us, st'. destruct (Hrun _ _ _ _ _ H0 E) as [A [_ C]]. auto.
Defined.

Lemma selection_in_tie_break_set_witness :
  build_expr mask5 = Some (map masked_atom mask5) /\
  exists u st',
    next demo_gen_index demo_hash_iter (SolverState_default demo_with_seed) mask5
         (from_path_text demo_text) = Some (u, st') /\
    contains (submitted (characterize (SolverState_default demo_with_seed) mask5)) u = false /\
    (forall k, contains (submitted (characterize (SolverState_default demo_with_seed) mask5)) k
               = false ->
       (tally_get (frequency_of (characterize (SolverState_default demo_with_seed) mask5)
                     (map masked_atom mask5) (from_path_text demo_text)) k
        <= tally_get (frequency_of (characterize (SolverState_default demo_with_seed) mask5)
                        (map masked_atom mask5) (from_path_text demo_text)) u)%nat).
Proof.
  assert (Hre : build_expr mask5 = Some (map masked_atom mask5)) by reflexivity.
  split; [exact Hre|].
  destruct (next demo_gen_index demo_hash_iter (SolverState_default demo_with_seed) mask5
              (from_path_text demo_text)) as [[u st']|] eqn:E;
    [|vm_compute in E; discriminate].
  exists u, st'. split; [reflexivity|].
  assert (Hex : exists k,
     contains (submitted (characterize (SolverState_default demo_with_seed) mask5)) k = false /\
     (0 < tally_get (frequency_of (characterize (SolverState_default demo_with_seed) mask5)
                       (map masked_atom mask5) (from_path_text demo_text)) k)%nat).
  { exists 69. split; [reflexivity|]. apply Nat.ltb_lt. vm_compute. reflexivity. }
  destruct (proj2 (selection_in_tie_break_set Z demo_gen_index demo_hash_iter
                     demo_gen_index_lt demo_hash_iter_perm
                     (SolverState_default demo_with_seed) mask5 (from_path_text demo_text)
                     _ Hre) u st' Hex E) as [_ [H1 H2]].
  auto.
Defined.

(** Two turns on APPLE, GRAPE, BERRY: E is selected first; with E revealed
    at the end ([****E]) the second letter is drawn from the ranking while
    E is reconciled. *)
Lemma ranked_selection_fresh_witness :
  next demo_gen_index demo_hash_iter (SolverState_default demo_with_seed) mask5
       (from_path_text demo_text)
  = Some (69, Build_SolverState [] (Some 69) [] 1021707705) /\
  exists u st',
    next demo_gen_index demo_hash_iter (Build_SolverState [] (Some 69) [] 1021707705)
         [42; 42; 42; 42; 69] (from_path_text demo_text) = Some (u, st') /\
    ~ In u [69] /\
    (forall x, In x [u; 69] -> In x (submitted st') \/ uncharacterized st' = Some x).
Proof.
  split; [vm_compute; reflexivity|].
  destruct (next demo_gen_index demo_hash_iter (Build_SolverState [] (Some 69) [] 1021707705)
              [42; 42; 42; 42; 69] (from_path_text demo_text)) as [[u st']|] eqn:E;
    [|vm_compute in E; discriminate].
  exists u, st'. split; [reflexivity|].
  apply (ranked_selection_fresh Z demo_gen_index demo_hash_iter demo_gen_index_lt
           demo_hash_iter_perm (Build_SolverState [] (Some 69) [] 1021707705)
           [42; 42; 42; 42; 69] (from_path_text demo_text)
           (map masked_atom [42; 42; 42; 42; 69]) [69] u st').
  - intros x [<-|[]]. right. reflexivity.
  - reflexivity.
  - intro H. vm_compute in H. discriminate H.
  - exact E.
Defined.

Lemma selection_ascii_witness :
  exists u st',
    next demo_gen_index demo_hash_iter (SolverState_default demo_with_seed) mask5
         (from_path_text demo_text) = Some (u, st') /\
    0 <= u < 128 /\ 65 <= u <= 90.
Proof.
  destruct (next demo_gen_index demo_hash_iter (SolverState_default demo_with_seed) mask5
              (from_path_text demo_text)) as [[u st']|] eqn:E;
    [|vm_compute in E; discriminate].
  assert (Ht : Forall (fun b => 0 <= b <= 255) demo_text)
    by (unfold demo_text, apple, grape, berry; simpl;
        repeat (apply Forall_cons; [lia|]); apply Forall_nil).
  destruct (selection_ascii Z demo_gen_index demo_hash_iter demo_gen_index_lt
              demo_hash_iter_perm _ mask5 demo_text u st' Ht E) as [H1 [_ H3]].
  exists u, st'. split; [reflexivity|]. split; [exact H1|].
  apply H3. intros w b Hw Hb. vm_compute in Hw.
  destruct Hw as [<-|[<-|[<-|[]]]]; simpl in Hb; lia.
Defined.

Lemma fallback_alphabet_witness :
  build_expr mask5 = Some (map masked_atom mask5) /\
  exists st',
    next demo_gen_index demo_hash_iter (SolverState_default demo_with_seed) mask5 []
    = Some (65 + Z.of_nat (fst (demo_gen_index
                                 (rng (characterize (SolverState_default demo_with_seed) mask5))
                                 26)), st').
Proof.
  assert (Hre : build_expr mask5 = Some (map masked_atom mask5)) by reflexivity.
  split; [exact Hre|].
  destruct (fallback_alphabet Z demo_gen_index demo_hash_iter demo_gen_index_lt
              demo_hash_iter_perm (SolverState_default demo_with_seed) mask5 [] _ Hre)
    as [Hempty [_ Hfb]].
  destruct (Hfb (Hempty eq_refl)) as [_ [_ [E _]]].
  exact E.
Defined.

Lemma next_total_witness :
  Forall (fun u => u = 42 \/ 65 <= u <= 90) mask_a_e /\
  build_expr mask_a_e <> None /\
  exists u st', next demo_gen_index demo_hash_iter (SolverState_default demo_with_seed)
                     mask_a_e (from_path_text demo_text) = Some (u, st').
Proof.
  assert (Hm : Forall (fun u => u = 42 \/ 65 <= u <= 90) mask_a_e)
    by (unfold mask_a_e; repeat (apply Forall_cons; [lia|]); apply Forall_nil).
  split; [exact Hm|].
  exact (next_total Z demo_gen_index demo_hash_iter demo_gen_index_lt
           (SolverState_default demo_with_seed) mask_a_e (from_path_text demo_text) Hm).
Defined.

(** ** Counterexamples *)

(** C4 fails by the fallback: on an empty dictionary every turn draws from
    ['A'..'Z'], so 27 turns repeat a letter whatever the generator; with the
    sample generator the first letter, S (83), comes back at turn 9. *)
Lemma repeat_guess_counterexample :
  exists us st',
    run demo_gen_index demo_hash_iter (SolverState_default demo_with_seed)
        (repeat mask5 27) [] = Some (us, st') /\
    ~ NoDup us.
Proof.
  destruct (run demo_gen_index demo_hash_iter (SolverState_default demo_with_seed)
              (repeat mask5 27) []) as [[us st']|] eqn:E;
    [|vm_compute in E; discriminate].
  exists us, st'. split; [reflexivity|].
  vm_compute in E. injection E as <- _.
  intro H. inversion H as [|x l Hx _]. apply Hx. simpl. tauto.
Qed.

(** C5 fails on a dictionary line ["11111"]: ASCII, five bytes long, kept
    at load time; it is the only candidate and ['1'] (49) is returned. *)
Lemma non_letter_guess_counterexample :
  exists st',
    next demo_gen_index demo_hash_iter (SolverState_default demo_with_seed) mask5
         (from_path_text [49; 49; 49; 49; 49; 10]) = Some (49, st') /\
    ~ (65 <= 49 <= 90).
Proof.
  exists (record_selection (characterize (SolverState_default demo_with_seed) mask5) 49
            (snd (demo_gen_index (rng (characterize (SolverState_default demo_with_seed) mask5)) 1))).
  split; [vm_compute; reflexivity|lia].
Qed.

(** ** More of the code: lemmas *)

Lemma first_rank_go_filter {A : Type} (f : A -> nat) (k : nat) (l : list A) :
  first_rank_go f (Some k) l = filter (fun y => Nat.eqb k (f y)) l.
Proof.
  induction l as [|y l IH]; simpl; [reflexivity|].
  destruct (Nat.eqb k (f y)); rewrite IH; reflexivity.
Qed.

Lemma str_cmp_antisym (a b : str) : str_cmp a b = Gt -> str_cmp b a = Lt.
Proof.
  revert b. induction a as [|x a IH]; intros [|y b]; simpl; try discriminate; auto.
  rewrite (Z.compare_antisym x y).
  destruct (x ?= y) eqn:E; simpl; try discriminate; auto.
Qed.

Lemma insert_sorted_sorted (s : str) (l : list str) :
  Sorted (fun a b => str_cmp a b <> Gt) l ->
  Sorted (fun a b => str_cmp a b <> Gt) (insert_sorted s l).
Proof.
  induction 1 as [|t l Hs IH Hhd]; simpl.
  - repeat constructor.
  - destruct (str_cmp s t) eqn:E.
    + constructor; [constructor; assumption|constructor; rewrite E; discriminate].
    + constructor; [constructor; assumption|constructor; rewrite E; discriminate].
    + constructor; [exact IH|].
      destruct l as [|t' l']; simpl.
      * constructor. rewrite (str_cmp_antisym _ _ E). discriminate.
      * inversion Hhd as [|? ? Htt']; subst.
        destruct (str_cmp s t'); constructor; try assumption;
          rewrite (str_cmp_antisym _ _ E); discriminate.
Qed.

Lemma sort_unstable_sorted (l : list str) :
  Sorted (fun a b => str_cmp a b <> Gt) (sort_unstable l).
Proof.
  induction l as [|x l IH]; simpl; [constructor|]. now apply insert_sorted_sorted.
Qed.

Lemma sort_unstable_of_sorted (l : list str) :
  Sorted (fun a b => str_cmp a b <> Gt) l -> sort_unstable l = l.
Proof.
  induction 1 as [|t l Hs IH Hhd]; [reflexivity|].
  change (insert_sorted t (sort_unstable l) = t :: l). rewrite IH.
  destruct l as [|t' l']; simpl; [reflexivity|].
  inversion Hhd as [|? ? Htt']; subst.
  destruct (str_cmp t t'); congruence.
Qed.

Lemma to_ascii_uppercase_byte_idem (u : Z) :
  to_ascii_uppercase_byte (to_ascii_uppercase_byte u) = to_ascii_uppercase_byte u.
Proof.
  unfold to_ascii_uppercase_byte.
  destruct ((97 <=? u) && (u <=? 122)) eqn:E.
  - apply andb_true_iff in E as [E1 E2]. apply Z.leb_le in E1, E2.
    replace ((97 <=? u - 32) && (u - 32 <=? 122)) with false; [reflexivity|].
    symmetry. apply andb_false_iff. left. apply Z.leb_gt. lia.
  - rewrite E. reflexivity.
Qed.

Lemma to_ascii_uppercase_idem (s : str) :
  to_ascii_uppercase (to_ascii_uppercase s) = to_ascii_uppercase s.
Proof.
  unfold to_ascii_uppercase. rewrite map_map.
  apply map_ext. apply to_ascii_uppercase_byte_idem.
Qed.

Lemma is_ascii_uppercase (s : str) : is_ascii s = true -> is_ascii (to_ascii_uppercase s) = true.
Proof.
  unfold is_ascii, to_ascii_uppercase. rewrite !forallb_forall. intros H v Hv.
  apply in_map_iff in Hv as [x [<- Hx]]. specialize (H x Hx). apply Z.ltb_lt in H.
  apply Z.ltb_lt. unfold to_ascii_uppercase_byte.
  destruct ((97 <=? x) && (x <=? 122)); lia.
Qed.

Lemma filter_all_true {A : Type} (p : A -> bool) (l : list A) :
  (forall x, In x l -> p x = true) -> filter p l = l.
Proof.
  induction l as [|x l IH]; simpl; intro H; [reflexivity|].
  rewrite (H x (or_introl eq_refl)), IH; auto.
Qed.

Lemma strip_suffix_cr_plain (cur : str) : ~ In 13 cur -> strip_suffix_cr (rev cur) = rev cur.
Proof.
  intro H. unfold strip_suffix_cr. rewrite rev_involutive.
  destruct cur as [|c cur]; [reflexivity|].
  destruct (Z.eqb_spec c 13) as [->|]; [exfalso; apply H; now left|reflexivity].
Qed.

Lemma lines_go_crlf (cur s : str) :
  ~ In 13 s -> ~ In 13 cur -> lines_go cur (crlf s) = lines_go cur s.
Proof.
  revert cur. induction s as [|u s IH]; intros cur Hs Hc; [reflexivity|].
  assert (Hs' : ~ In 13 s) by (intro H; apply Hs; now right).
  assert (Hu : u <> 13) by (intro H; apply Hs; now left).
  unfold crlf. cbn [flat_map]. fold (crlf s).
  destruct (Z.eqb_spec u 10) as [->|Hne]; simpl.
  - f_equal.
    + rewrite strip_suffix_cr_plain by exact Hc.
      unfold strip_suffix_cr. rewrite rev_app_distr. simpl. rewrite rev_involutive.
      reflexivity.
    + apply IH; auto.
  - apply Z.eqb_neq in Hne. rewrite Hne. apply IH; [exact Hs'|].
    simpl. intros [H|H]; [congruence|contradiction].
Qed.


Lemma games_get_set_same (games : list (Z * Game)) (id : Z) (g g' : Game) :
  games_get games id = Some g -> games_get (games_set games id g') id = Some g'.
Proof.
  induction games as [|[k g0] gs IH]; simpl; [discriminate|].
  destruct (k =? id) eqn:E; simpl; rewrite E; auto.
Qed.

Lemma games_set_get_id (games : list (Z * Game)) (id : Z) (g : Game) :
  games_get games id = Some g -> games_set games id g = games.
Proof.
  induction games as [|[k g0] gs IH]; simpl; [discriminate|].
  destruct (k =? id); [intro H; injection H as ->; reflexivity|].
  intro H. rewrite (IH H). reflexivity.
Qed.

Lemma games_get_set_other (games : list (Z * Game)) (id k : Z) (g' : Game) :
  k <> id -> games_get (games_set games id g') k = games_get games k.
Proof.
  intro Hk. induction games as [|[k0 g0] gs IH]; simpl; [reflexivity|].
  destruct (Z.eqb_spec k0 id) as [->|Hne]; simpl.
  - replace (id =? k) with false by (symmetry; apply Z.eqb_neq; congruence). reflexivity.
  - rewrite IH. reflexivity.
Qed.

Lemma games_get_insert (games : list (Z * Game)) (id : Z) (g : Game) :
  games_get (games_insert games id g) id = Some g.
Proof.
  unfold games_insert. destruct (games_get games id) eqn:E.
  - exact (games_get_set_same _ _ _ _ E).
  - simpl. rewrite Z.eqb_refl. reflexivity.
Qed.

Lemma existsb_eqb_In (x : Z) (w : str) : existsb (fun u => u =? x) w = true <-> In x w.
Proof.
  rewrite existsb_exists. split.
  - intros [y [Hy E]]. apply Z.eqb_eq in E. now subst.
  - intro H. exists x. split; [exact H|apply Z.eqb_refl].
Qed.

Lemma contains_false (s : list Z) (u : Z) : contains s u = false <-> ~ In u s.
Proof. rewrite <- contains_In. destruct (contains s u); intuition congruence. Qed.

Lemma is_lost_false (g : Game) : is_lost g = false <-> (length (incorrect g) <= 6)%nat.
Proof. unfold is_lost, len_i32. rewrite Z.leb_gt. lia. Qed.

Lemma update_game_legal (games : list (Z * Game)) (id : Z) (letter : str) (g : Game) :
  length letter = 1%nat -> is_ascii letter = true -> games_get games id = Some g ->
  update_game games id letter
  = (fst (update_game_found g letter), games_set games id (snd (update_game_found g letter))).
Proof.
  intros Hl Ha Hg. unfold update_game. rewrite Hl, Ha. simpl. rewrite Hg.
  destruct (update_game_found g letter). reflexivity.
Qed.

(** The three ways [update_game_found] goes on an ongoing game. *)
Lemma ugf_dup (g : Game) (letter : str) :
  is_lost g = false -> is_won g = false ->
  In (to_ascii_uppercase_byte (hd 0 letter)) (correct g)
  \/ In (to_ascii_uppercase_byte (hd 0 letter)) (incorrect g) ->
  update_game_found g letter = (Err (DuplicateGuess letter), g).
Proof.
  intros Hl Hw Hd. unfold update_game_found. rewrite Hl, Hw. cbv zeta.
  replace (contains (correct g) (to_ascii_uppercase_byte (hd 0 letter))
           || contains (incorrect g) (to_ascii_uppercase_byte (hd 0 letter))) with true;
    [reflexivity|].
  symmetry. apply orb_true_iff. rewrite !contains_In. exact Hd.
Qed.

Lemma ugf_hit (g : Game) (letter : str) (guess : Z) :
  guess = to_ascii_uppercase_byte (hd 0 letter) ->
  is_lost g = false -> is_won g = false ->
  ~ In guess (correct g) -> ~ In guess (incorrect g) -> In guess (word g) ->
  update_game_found g letter
  = (let g' := {| word := word g; correct := guess :: correct g; incorrect := incorrect g |} in
     (if is_won g' then
        if guesses_remaining g' >=? 3 then Ok (win (word g) Messages.flawless)
        else Ok (win (word g) Messages.victory_is_yours)
      else Ok (UpdateGameResponse_update g'), g')).
Proof.
  intros -> Hl Hw Hc Hi Hin. unfold update_game_found. rewrite Hl, Hw. cbv zeta.
  apply contains_false in Hc, Hi. rewrite Hc, Hi. simpl.
  apply existsb_eqb_In in Hin. rewrite Hin.
  unfold hs_insert. rewrite Hc. cbv zeta.
  repeat match goal with |- context [if ?c then _ else _] => destruct c end; reflexivity.
Qed.

Lemma ugf_miss (g : Game) (letter : str) (guess : Z) :
  guess = to_ascii_uppercase_byte (hd 0 letter) ->
  is_lost g = false -> is_won g = false ->
  ~ In guess (correct g) -> ~ In guess (incorrect g) -> ~ In guess (word g) ->
  update_game_found g letter
  = (let g' := {| word := word g; correct := correct g; incorrect := guess :: incorrect g |} in
     (if is_lost g' then Ok (lose (word g) Messages.hanged)
      else Ok (UpdateGameResponse_update g'), g')).
Proof.
  intros -> Hl Hw Hc Hi Hin. unfold update_game_found. rewrite Hl, Hw. cbv zeta.
  apply contains_false in Hc, Hi. rewrite Hc, Hi. simpl.
  replace (existsb (fun u => u =? to_ascii_uppercase_byte (hd 0 letter)) (word g)) with false
    by (symmetry; apply not_true_iff_false; rewrite existsb_eqb_In; exact Hin).
  unfold hs_insert. rewrite Hi. cbv zeta.
  repeat match goal with |- context [if ?c then _ else _] => destruct c end; reflexivity.
Qed.

Lemma to_ascii_uppercase_byte_not_lower (u : Z) : ~ (97 <= to_ascii_uppercase_byte u <= 122).
Proof.
  unfold to_ascii_uppercase_byte. destruct ((97 <=? u) && (u <=? 122)) eqn:E.
  - apply andb_true_iff in E as [E1 E2]. apply Z.leb_le in E1, E2. lia.
  - apply andb_false_iff in E as [E|E]; apply Z.leb_gt in E; lia.
Qed.

Lemma RandomSolver_run_spec (s : RandomSolver) (n : nat) :
  (0 < length (alpha s))%nat -> (idx s <= length (alpha s))%nat ->
  exists us s', RandomSolver_run s n = Some (us, s') /\ length us = n /\
    alpha s' = alpha s /\ (idx s' <= length (alpha s))%nat /\
    (forall i, (i < n)%nat ->
       nth_error us i = nth_error (alpha s) ((idx s + i) mod length (alpha s))).
Proof.
  revert s. induction n as [|n IH]; intros s HL Hi.
  - exists [], s. simpl. repeat split; auto. intros i H. lia.
  - set (L := length (alpha s)) in *.
    set (i0 := if Nat.leb L (idx s) then 0%nat else idx s).
    assert (Hi0 : i0 = ((idx s) mod L)%nat).
    { unfold i0. destruct (Nat.leb_spec L (idx s)).
      - replace (idx s) with L by lia. rewrite Nat.Div0.mod_same; lia.
      - rewrite Nat.mod_small; lia. }
    assert (Hlt : (i0 < L)%nat) by (rewrite Hi0; apply Nat.mod_upper_bound; lia).
    destruct (nth_error (alpha s) i0) as [a|] eqn:Ea;
      [|apply nth_error_None in Ea; unfold L in Hlt; lia].
    destruct (IH {| idx := S i0; alpha := alpha s |}) as [us [s' [E [Hlen [Ha [Hi' Hnth]]]]]];
      simpl; [exact HL|unfold L in Hlt; lia|].
    exists (a :: us), s'. simpl. unfold RandomSolver_next. fold L. fold i0. rewrite Ea, E.
    repeat split; [simpl; lia|exact Ha|exact Hi'|].
    intros [|i] Hi''; simpl.
    + rewrite Nat.add_0_r, <- Hi0. symmetry. exact Ea.
    + rewrite Hnth by lia. fold L. f_equal.
      rewrite Hi0. cbn [idx alpha]. fold L.
      replace (S (idx s mod L) + i)%nat with (idx s mod L + S i)%nat by lia.
      rewrite Nat.Div0.add_mod_idemp_l. reflexivity.
Qed.

Lemma lowercase_alphabet_In (u : Z) : In u lowercase_alphabet <-> 97 <= u <= 122.
Proof.
  unfold lowercase_alphabet. rewrite in_map_iff. split.
  - intros [i [<- Hin]]. apply in_seq in Hin. lia.
  - intro Hu. exists (Z.to_nat (u - 97)). split; [lia|]. apply in_seq. lia.
Qed.

Lemma lowercase_alphabet_NoDup : NoDup lowercase_alphabet.
Proof. unfold lowercase_alphabet. simpl. repeat constructor; simpl; lia. Qed.

(** ** More of the code: properties *)

(** X1: [first_rank_by_key] keeps every item whose key equals the key of
    the first item, wherever it stands in the input and in input order: the
    [fuse] does not stop it at the first item with another key. *)
Theorem first_rank_by_key_first_key {A : Type} (f : A -> nat) (l : list A) :
  first_rank_by_key l f
  = match l with
    | [] => []
    | x :: _ => filter (fun y => Nat.eqb (f x) (f y)) l
    end.
Proof.
  destruct l as [|x l]; [reflexivity|]. unfold first_rank_by_key. simpl.
  rewrite Nat.eqb_refl, first_rank_go_filter. reflexivity.
Qed.

(** X3: the dictionary [from_words] builds is sorted in the byte order of
    [String], and building it again from its own entries gives it back. *)
Theorem from_words_sorted_idempotent (words : list str) :
  Sorted (fun a b => str_cmp a b <> Gt) (from_words words) /\
  from_words (from_words words) = from_words words.
Proof.
  assert (Hs : Sorted (fun a b => str_cmp a b <> Gt) (from_words words))
    by apply sort_unstable_sorted.
  split; [exact Hs|].
  set (D := from_words words) in *.
  assert (HD : forall x, In x D ->
            (5 <= length x)%nat /\ is_ascii x = true /\ to_ascii_uppercase x = x).
  { intros x Hx. apply from_words_In in Hx as [w [_ [H5 [Ha ->]]]].
    split; [unfold to_ascii_uppercase; rewrite length_map; exact H5|].
    split; [now apply is_ascii_uppercase|apply to_ascii_uppercase_idem]. }
  unfold from_words at 1. rewrite filter_map_bool_then.
  rewrite filter_all_true.
  - rewrite map_ext_in with (g := fun x => x) by (intros x Hx; apply HD, Hx).
    rewrite map_id. now apply sort_unstable_of_sorted.
  - intros x Hx. destruct (HD x Hx) as [H5 [Ha _]].
    apply andb_true_iff. split; [now apply Nat.leb_le|exact Ha].
Qed.

(** X4: a word file with CRLF line ends gives the same lines, the same
    client dictionary and the same server word list as with LF line ends
    (for a file with no other carriage return). *)
Theorem lines_crlf (text : str) :
  ~ In 13 text ->
  lines (crlf text) = lines text /\
  from_path_text (crlf text) = from_path_text text /\
  read_words_text (crlf text) = read_words_text text.
Proof.
  intro H. assert (E : lines (crlf text) = lines text)
    by (unfold lines; apply lines_go_crlf; [exact H|intros []]).
  unfold from_path_text, read_words_text. rewrite E. auto.
Qed.

(** X5: the client's dictionary is the server's word list from the same
    file, sorted: the same entries with the same multiplicities. *)
Theorem read_words_agrees (text : str) :
  from_path_text text = sort_unstable (read_words_text text) /\
  Permutation (read_words_text text) (from_path_text text).
Proof.
  assert (E : from_path_text text = sort_unstable (read_words_text text)).
  { unfold from_path_text, from_words, read_words_text.
    rewrite filter_map_bool_then. f_equal. f_equal.
    apply filter_ext. intro w. apply andb_comm. }
  split; [exact E|]. rewrite E. symmetry. apply sort_unstable_perm.
Qed.



(** X8: the remaining guesses reported are between 0 and 7, and they are 0
    exactly when the game is lost. *)
Theorem guesses_remaining_is_lost (g : Game) :
  0 <= guesses_remaining g <= 7 /\ (is_lost g = true <-> guesses_remaining g = 0).
Proof.
  unfold guesses_remaining, is_lost, len_i32. rewrite Z.leb_le. lia.
Qed.

(** X9: [update_game] fails in three ways, and leaves the game table
    unchanged when it does: [IllegalGuess] when the letter is not one ASCII
    byte (checked before the game is looked up), [GameNotFound] for an
    unknown id, [DuplicateGuess] when the upper-cased letter was already
    guessed in a game still going on. *)
Theorem update_game_errors (games : list (Z * Game)) (id : Z) (letter : str)
    (e : Error) (games' : list (Z * Game)) :
  update_game games id letter = (Err e, games') ->
  games' = games /\
  ((e = IllegalGuess letter /\ (length letter <> 1%nat \/ is_ascii letter = false)) \/
   (e = GameNotFound id /\ length letter = 1%nat /\ is_ascii letter = true /\
    games_get games id = None) \/
   (e = DuplicateGuess letter /\ length letter = 1%nat /\ is_ascii letter = true /\
    exists g, games_get games id = Some g /\ is_lost g = false /\ is_won g = false /\
      (In (to_ascii_uppercase_byte (hd 0 letter)) (correct g)
       \/ In (to_ascii_uppercase_byte (hd 0 letter)) (incorrect g)))).
Proof.
  unfold update_game.
  destruct (negb (Nat.eqb (length letter) 1) || negb (is_ascii letter)) eqn:E.
  - intro H. injection H as <- <-. split; [reflexivity|left]. split; [reflexivity|].
    apply orb_true_iff in E as [E|E]; apply negb_true_iff in E.
    + left. apply Nat.eqb_neq, E.
    + right. exact E.
  - apply orb_false_iff in E as [E1 E2]. apply negb_false_iff in E1, E2.
    apply Nat.eqb_eq in E1.
    destruct (games_get games id) as [g|] eqn:Hg.
    + destruct (update_game_found g letter) as [res g0] eqn:U.
      intro H. injection H as -> <-.
      unfold update_game_found in U.
      destruct (is_lost g) eqn:L; [discriminate U|].
      destruct (is_won g) eqn:W; [discriminate U|].
      cbv zeta in U.
      destruct (contains (correct g) (to_ascii_uppercase_byte (hd 0 letter))
                || contains (incorrect g) (to_ascii_uppercase_byte (hd 0 letter))) eqn:D.
      * injection U as <- <-. split; [now apply games_set_get_id|].
        right. right. split; [reflexivity|]. split; [exact E1|]. split; [exact E2|].
        exists g. split; [reflexivity|]. split; [exact L|]. split; [exact W|].
        apply orb_true_iff in D. rewrite !contains_In in D. exact D.
      * repeat match type of U with context [if ?c then _ else _] => destruct c end;
          discriminate U.
    + intro H. injection H as <- <-. split; [reflexivity|]. right. left. auto.
Qed.

(** X10: once a game is lost or won, [update_game] answers with a legal
    letter exactly as [read_game] does, a [Finalize] response (the loss
    first), and leaves the game table unchanged. *)
Theorem update_game_finished (games : list (Z * Game)) (id : Z) (letter : str) (g : Game) :
  games_get games id = Some g -> length letter = 1%nat -> is_ascii letter = true ->
  (is_lost g || is_won g) = true ->
  update_game games id letter = (read_game games id, games) /\
  read_game games id
  = Ok (Finalize (negb (is_lost g))
          (if is_lost g then Messages.better_luck else Messages.stop_rubbing) (word g)).
Proof.
  intros Hg Hl Ha Hf. rewrite (update_game_legal games id letter g Hl Ha Hg).
  unfold read_game. rewrite Hg. unfold update_game_found.
  destruct (is_lost g) eqn:L; [|destruct (is_won g) eqn:W; [|discriminate Hf]];
    simpl; rewrite (games_set_get_id _ _ _ Hg); split; reflexivity.
Qed.

(** X11: an accepted letter [b] in a game going on was not guessed before
    (upper-cased); it is added to [correct] when it occurs in the word, the
    guesses staying as they were, and to [incorrect] otherwise, costing one
    guess.  The response is [Update] of the game as left in the table, or
    [Finalize] when that game is won or lost, with victory exactly when it is
    won and the message "FLAWLESS VICTORY!" exactly for a win with at most 4
    misses. *)
Theorem update_game_accepted (games : list (Z * Game)) (id : Z) (letter : str) (g : Game)
    (r : UpdateGameResponse) (games' : list (Z * Game)) :
  games_get games id = Some g -> is_lost g = false -> is_won g = false ->
  update_game games id letter = (Ok r, games') ->
  exists b g', letter = [b] /\ games_get games' id = Some g' /\ word g' = word g /\
    ~ In (to_ascii_uppercase_byte b) (correct g) /\
    ~ In (to_ascii_uppercase_byte b) (incorrect g) /\
    ((In (to_ascii_uppercase_byte b) (word g) /\
      correct g' = to_ascii_uppercase_byte b :: correct g /\ incorrect g' = incorrect g /\
      guesses_remaining g' = guesses_remaining g) \/
     (~ In (to_ascii_uppercase_byte b) (word g) /\
      correct g' = correct g /\ incorrect g' = to_ascii_uppercase_byte b :: incorrect g /\
      guesses_remaining g' = guesses_remaining g - 1)) /\
    ((r = UpdateGameResponse_update g' /\ is_lost g' = false /\ is_won g' = false) \/
     (exists m, r = Finalize (is_won g') m (word g') /\ is_lost g' = negb (is_won g') /\
        (m = Messages.flawless <-> is_won g' = true /\ (length (incorrect g') <= 4)%nat))).
Proof.
  intros Hg Hl Hw H.
  assert (Hlegal : length letter = 1%nat /\ is_ascii letter = true).
  { unfold update_game in H.
    destruct (negb (Nat.eqb (length letter) 1) || negb (is_ascii letter)) eqn:E;
      [discriminate H|].
    apply orb_false_iff in E as [E1 E2]. apply negb_false_iff in E1, E2.
    split; [apply Nat.eqb_eq, E1|exact E2]. }
  destruct Hlegal as [Hlen Ha].
  rewrite (update_game_legal games id letter g Hlen Ha Hg) in H.
  injection H as Hr Hgs.
  destruct letter as [|b [|b' l]]; try discriminate Hlen.
  set (guess := to_ascii_uppercase_byte b).
  assert (Hguess : guess = to_ascii_uppercase_byte (hd 0 [b])) by reflexivity.
  destruct (in_dec Z.eq_dec guess (correct g)) as [Dc|Dc];
    [rewrite ugf_dup in Hr by auto; discriminate Hr|].
  destruct (in_dec Z.eq_dec guess (incorrect g)) as [Di|Di];
    [rewrite ugf_dup in Hr by auto; discriminate Hr|].
  apply is_lost_false in Hl as Hl6.
  destruct (in_dec Z.eq_dec guess (word g)) as [Hin|Hin].
  - rewrite (ugf_hit g [b] guess Hguess Hl Hw Dc Di Hin) in Hr, Hgs.
    cbv zeta in Hr, Hgs. simpl in Hgs.
    set (g' := {| word := word g; correct := guess :: correct g; incorrect := incorrect g |})
      in *.
    exists b, g'. split; [reflexivity|]. split; [rewrite <- Hgs; exact (games_get_set_same _ _ _ _ Hg)|].
    split; [reflexivity|]. split; [exact Dc|]. split; [exact Di|].
    split; [left; repeat split; exact Hin|].
    assert (Hl' : is_lost g' = false) by exact Hl.
    destruct (is_won g') eqn:W'.
    + right. unfold guesses_remaining, len_i32 in Hr.
      destruct (Z.max (7 - Z.of_nat (length (incorrect g'))) 0 >=? 3) eqn:G;
        injection Hr as <-; eexists; (split; [reflexivity|]); (split; [rewrite Hl'; reflexivity|]);
        rewrite Z.geb_leb in G; (apply Z.leb_le in G || apply Z.leb_gt in G). 
      * split; [intros _; split; [reflexivity|lia]|auto].
      * split; [intro E; discriminate E|intros [_ H4]; lia].
    + left. injection Hr as <-. auto.
  - rewrite (ugf_miss g [b] guess Hguess Hl Hw Dc Di Hin) in Hr, Hgs.
    cbv zeta in Hr, Hgs. simpl in Hgs.
    set (g' := {| word := word g; correct := correct g; incorrect := guess :: incorrect g |})
      in *.
    exists b, g'. split; [reflexivity|]. split; [rewrite <- Hgs; exact (games_get_set_same _ _ _ _ Hg)|].
    split; [reflexivity|]. split; [exact Dc|]. split; [exact Di|].
    split.
    { right. split; [exact Hin|]. split; [reflexivity|]. split; [reflexivity|].
      unfold guesses_remaining, len_i32, g'. cbn [length incorrect]. lia. }
    assert (Hw' : is_won g' = false) by exact Hw.
    destruct (is_lost g') eqn:L'.
    + right. injection Hr as <-. rewrite Hw'. eexists. split; [reflexivity|].
      split; [reflexivity|]. split; [intro E; discriminate E|intros [E _]; discriminate E].
    + left. injection Hr as <-. auto.
Qed.

(** X12: [update_game] does not see the case of the letter: a lower-case
    letter and its upper-case form leave the same game table and get the
    same successful response. *)
Theorem update_game_case_insensitive (games : list (Z * Game)) (id b : Z) :
  97 <= b <= 122 ->
  snd (update_game games id [b]) = snd (update_game games id [b - 32]) /\
  (forall r, fst (update_game games id [b]) = Ok r <->
             fst (update_game games id [b - 32]) = Ok r).
Proof.
  intro Hb.
  assert (Hu : to_ascii_uppercase_byte b = b - 32).
  { unfold to_ascii_uppercase_byte.
    replace ((97 <=? b) && (b <=? 122)) with true; [reflexivity|].
    symmetry. apply andb_true_iff. split; apply Z.leb_le; lia. }
  assert (Hu' : to_ascii_uppercase_byte (b - 32) = b - 32).
  { rewrite <- Hu. apply to_ascii_uppercase_byte_idem. }
  unfold update_game. simpl.
  replace (b <? 128) with true by (symmetry; apply Z.ltb_lt; lia).
  replace (b - 32 <? 128) with true by (symmetry; apply Z.ltb_lt; lia).
  simpl. destruct (games_get games id) as [g|].
  - unfold update_game_found. cbv zeta. cbn [hd]. rewrite Hu, Hu'.
    repeat match goal with |- context [if ?c then _ else _] => destruct c end;
      simpl; (split; [reflexivity|intro r; split; intro H; try discriminate H; exact H]).
  - simpl. split; [reflexivity|intro r; split; intro H; discriminate H].
Qed.

(** X13: [update_game] keeps every game of the table well formed
    ([game_wf]); it changes at most the game of the given id, never its
    word, and only adds guesses to it. *)
Theorem update_game_wf (games : list (Z * Game)) (id : Z) (letter : str) (g : Game) :
  games_get games id = Some g -> game_wf g ->
  exists g', games_get (snd (update_game games id letter)) id = Some g' /\
    word g' = word g /\ game_wf g' /\
    incl (correct g) (correct g') /\ incl (incorrect g) (incorrect g') /\
    (forall k, k <> id -> games_get (snd (update_game games id letter)) k = games_get games k).
Proof.
  intros Hg Hwf.
  assert (Same : snd (update_game games id letter) = games ->
                 exists g', games_get (snd (update_game games id letter)) id = Some g' /\
                   word g' = word g /\ game_wf g' /\
                   incl (correct g) (correct g') /\ incl (incorrect g) (incorrect g') /\
                   (forall k, k <> id ->
                      games_get (snd (update_game games id letter)) k = games_get games k)).
  { intro E. rewrite E. exists g. split; [exact Hg|]. split; [reflexivity|].
    split; [exact Hwf|]. split; [intros x Hx; exact Hx|]. split; [intros x Hx; exact Hx|].
    auto. }
  destruct (Nat.eqb (length letter) 1 && is_ascii letter) eqn:Legal.
  2:{ apply Same. unfold update_game.
      destruct (Nat.eqb (length letter) 1), (is_ascii letter); try discriminate Legal;
        reflexivity. }
  apply andb_true_iff in Legal as [Hlen Ha]. apply Nat.eqb_eq in Hlen.
  rewrite (update_game_legal games id letter g Hlen Ha Hg). simpl.
  assert (Other : forall g', forall k, k <> id ->
            games_get (games_set games id g') k = games_get games k)
    by (intros g' k Hk; now apply games_get_set_other).
  assert (Keep : snd (update_game_found g letter) = g -> exists g',
            games_get (games_set games id (snd (update_game_found g letter))) id = Some g' /\
            word g' = word g /\ game_wf g' /\
            incl (correct g) (correct g') /\ incl (incorrect g) (incorrect g') /\
            (forall k, k <> id ->
               games_get (games_set games id (snd (update_game_found g letter))) k
               = games_get games k)).
  { intro E. rewrite E. exists g. split; [exact (games_get_set_same _ _ _ _ Hg)|].
    split; [reflexivity|].
    split; [exact Hwf|]. split; [intros x Hx; exact Hx|]. split; [intros x Hx; exact Hx|].
    apply Other. }
  destruct (is_lost g) eqn:L; [apply Keep; unfold update_game_found; now rewrite L|].
  destruct (is_won g) eqn:W; [apply Keep; unfold update_game_found; now rewrite L, W|].
  set (guess := to_ascii_uppercase_byte (hd 0 letter)).
  assert (Hguess : guess = to_ascii_uppercase_byte (hd 0 letter)) by reflexivity.
  destruct (in_dec Z.eq_dec guess (correct g)) as [Dc|Dc];
    [apply Keep; rewrite ugf_dup by auto; reflexivity|].
  destruct (in_dec Z.eq_dec guess (incorrect g)) as [Di|Di];
    [apply Keep; rewrite ugf_dup by auto; reflexivity|].
  destruct Hwf as [N1 [N2 [I1 [I2 [I3 I4]]]]].
  apply is_lost_false in L as L6.
  assert (Hup : ~ (97 <= guess <= 122)) by apply to_ascii_uppercase_byte_not_lower.
  destruct (in_dec Z.eq_dec guess (word g)) as [Hin|Hin].
  - rewrite (ugf_hit g letter guess Hguess L W Dc Di Hin). cbv zeta. simpl.
    eexists. split; [exact (games_get_set_same _ _ _ _ Hg)|]. split; [reflexivity|].
    split.
    + simpl. split; [constructor; assumption|]. split; [exact N2|].
      split; [intros x [<-|Hx]; [exact Hin|exact (I1 x Hx)]|].
      split; [exact I2|]. split; [exact I3|].
      intros x [[<-|Hx]|Hx]; [exact Hup|apply I4; now left|apply I4; now right].
    + simpl. split; [intros x Hx; now right|]. split; [intros x Hx; exact Hx|].
      apply Other.
  - rewrite (ugf_miss g letter guess Hguess L W Dc Di Hin). cbv zeta. simpl.
    eexists. split; [exact (games_get_set_same _ _ _ _ Hg)|]. split; [reflexivity|].
    split.
    + simpl. split; [exact N1|]. split; [constructor; assumption|].
      split; [exact I1|].
      split; [intros x [<-|Hx]; [exact Hin|exact (I2 x Hx)]|]. split; [simpl; lia|].
      intros x [Hx|[<-|Hx]]; [apply I4; now left|exact Hup|apply I4; now right].
    + simpl. split; [intros x Hx; exact Hx|]. split; [intros x Hx; now right|].
      apply Other.
Qed.

(** X15: [RandomSolver] from [RandomSolver::new] (whatever permutation the
    shuffle makes of ['a'..'z']) never panics; its first 26 guesses are the
    shuffled alphabet, so each lower-case letter once, and from then on the
    guesses repeat with period 26. *)
Theorem RandomSolver_cycle {R : Type} (shuffle : list Z -> R -> list Z * R) (r : R) (n : nat) :
  Permutation (fst (shuffle lowercase_alphabet r)) lowercase_alphabet ->
  exists us s', RandomSolver_run (RandomSolver_new shuffle r) n = Some (us, s') /\
    length us = n /\
    (26 <= n -> firstn 26 us = fst (shuffle lowercase_alphabet r))%nat /\
    NoDup (fst (shuffle lowercase_alphabet r)) /\
    (forall u, In u (fst (shuffle lowercase_alphabet r)) <-> 97 <= u <= 122) /\
    (forall i, (i + 26 < n)%nat -> nth_error us (i + 26) = nth_error us i).
Proof.
  intro Hp. set (a := fst (shuffle lowercase_alphabet r)) in *.
  assert (HL : length a = 26%nat) by (rewrite (Permutation_length Hp); reflexivity).
  destruct (RandomSolver_run_spec (RandomSolver_new shuffle r) n) as
      [us [s' [E [Hlen [_ [_ Hnth]]]]]]; simpl; fold a; [lia|lia|].
  exists us, s'. split; [exact E|]. split; [exact Hlen|].
  unfold RandomSolver_new in Hnth. cbn [alpha idx] in Hnth. fold a in Hnth.
  rewrite HL in Hnth.
  split; [|split; [|split]].
  - intro Hn. apply (nth_error_ext (firstn 26 us) a). intro i.
    destruct (Nat.lt_ge_cases i 26) as [Hi|Hi].
    + rewrite nth_error_firstn. destruct (Nat.ltb_spec i 26); [|lia].
      rewrite Hnth by lia. rewrite Nat.mod_small by lia. reflexivity.
    + rewrite (proj2 (nth_error_None (firstn 26 us) i)), (proj2 (nth_error_None a i));
        [reflexivity|lia|rewrite length_firstn; lia].
  - apply (Permutation_NoDup (Permutation_sym Hp)), lowercase_alphabet_NoDup.
  - intro u. rewrite <- lowercase_alphabet_In. split; apply Permutation_in; [exact Hp|].
    apply Permutation_sym, Hp.
  - intros i Hi. rewrite !Hnth by lia. f_equal.
    replace (0 + (i + 26))%nat with (i + 1 * 26)%nat by lia.
    rewrite Nat.Div0.mod_add. reflexivity.
Qed.

(** ** The strategic client against the server: lemmas *)

Lemma keys_filter_NoDup {V K : Type} (key : V -> K) (keep : V -> bool) :
  forall xs : list V, NoDup (map key xs) -> NoDup (map key (filter keep xs)).
Proof.
  intros xs; induction xs as [|v xs IHxs]; cbn [map filter]; intro Hnd.
  - exact Hnd.
  - apply NoDup_cons_iff in Hnd as [Hv Hrest].
    case (keep v); cbn [map]; [apply NoDup_cons_iff; split|]; auto.
    rewrite in_map_iff; intros [w [Hkw Hw]]; rewrite filter_In in Hw.
    apply Hv; rewrite <- Hkw; apply in_map; tauto.
Qed.

Lemma forallb_false_exists {A : Type} (p : A -> bool) (l : list A) :
  forallb p l = false -> exists x, In x l /\ p x = false.
Proof.
  induction l as [|x l IH]; simpl; [discriminate|].
  destruct (p x) eqn:E; simpl.
  - intro H. destruct (IH H) as [y [Hy Hp]]. exists y. auto.
  - intros _. exists x. auto.
Qed.

Lemma alphabet_In (u : Z) : In u alphabet <-> 65 <= u <= 90.
Proof.
  unfold alphabet. rewrite in_map_iff. split.
  - intros [i [<- Hi]]. apply in_seq in Hi. lia.
  - intro H. exists (Z.to_nat (u - 65)). rewrite in_seq. lia.
Qed.

Lemma first_rank_by_key_complete {A : Type} (f : A -> nat) (e0 : A) (l : list A) (x : A) :
  In x (e0 :: l) -> f x = f e0 -> In x (first_rank_by_key (e0 :: l) f).
Proof.
  unfold first_rank_by_key. simpl. intros [<-|Hx] Hf; [now left|right].
  rewrite first_rank_go_filter. apply filter_In. split; [exact Hx|].
  apply Nat.eqb_eq. congruence.
Qed.

Lemma first_rank_by_key_sub {A : Type} (f : A -> nat) (l : list A) :
  exists p, first_rank_by_key l f = filter p l.
Proof.
  destruct l as [|e0 l]; [exists (fun _ => true); reflexivity|].
  exists (fun y => Nat.eqb (f e0) (f y)). unfold first_rank_by_key. simpl.
  rewrite Nat.eqb_refl, first_rank_go_filter. reflexivity.
Qed.

Lemma characterize_submitted {R : Type} (st : SolverState R) (w : str) (k : Z) :
  In k (submitted (characterize st w)) <-> In k (submitted st) \/ uncharacterized st = Some k.
Proof.
  unfold characterize. destruct (uncharacterized st) as [u|]; simpl.
  - rewrite hs_insert_In.
    split; intros [H|H]; [right; congruence|left; exact H|right; exact H|left; congruence].
  - split; [auto|]. intros [H|H]; [exact H|discriminate].
Qed.

Lemma characterize_disallow {R : Type} (st : SolverState R) (w : str) (k : Z) :
  In k (disallow (characterize st w)) ->
  In k (disallow st) \/ (uncharacterized st = Some k /\ ~ In k w).
Proof.
  unfold characterize. destruct (uncharacterized st) as [u|]; simpl; [|auto].
  destruct (existsb (fun uword => u =? uword) w) eqn:E; [auto|].
  rewrite hs_insert_In. intros [->|H]; [|auto].
  right. split; [reflexivity|]. rewrite <- existsb_eq_In. congruence.
Qed.

Lemma masked_word_In (g : Game) (u : Z) :
  In u (word g) -> In u (correct g) -> In u (masked_word g).
Proof.
  intros Hw Hc. unfold masked_word. apply in_map_iff. exists u.
  apply contains_In in Hc. rewrite Hc. auto.
Qed.

Lemma masked_word_shape (g : Game) :
  Forall (fun u => 65 <= u <= 90) (word g) ->
  Forall (fun u => u = 42 \/ 65 <= u <= 90) (masked_word g).
Proof.
  unfold masked_word. rewrite !Forall_forall. intros H x Hx.
  apply in_map_iff in Hx as [u [<- Hu]].
  destruct (contains (correct g) u); [right; apply H, Hu|left; reflexivity].
Qed.

Lemma letters_no_newline (w : str) : Forall (fun u => 65 <= u <= 90) w -> ~ In 10 w.
Proof. rewrite Forall_forall. intros H Hn. specialize (H 10 Hn). lia. Qed.

Lemma correct_le_26 (g : Game) :
  NoDup (correct g) -> incl (correct g) (word g) -> Forall (fun u => 65 <= u <= 90) (word g) ->
  (length (correct g) <= 26)%nat.
Proof.
  intros Hn Hi Hl. change 26%nat with (length alphabet).
  apply NoDup_incl_length; [exact Hn|]. intros x Hx. apply alphabet_In.
  rewrite Forall_forall in Hl. exact (Hl x (Hi x Hx)).
Qed.

Lemma games_set_set (games : list (Z * Game)) (id : Z) (g1 g2 : Game) :
  games_set (games_set games id g1) id g2 = games_set games id g2.
Proof.
  induction games as [|[k g0] gs IH]; simpl; [reflexivity|].
  destruct (k =? id) eqn:E; simpl; rewrite E; [reflexivity|now rewrite IH].
Qed.

Lemma games_get_insert_other (games : list (Z * Game)) (id k : Z) (g : Game) :
  k <> id -> games_get (games_insert games id g) k = games_get games k.
Proof.
  intro Hk. unfold games_insert. destruct (games_get games id).
  - apply games_get_set_other. exact Hk.
  - simpl. replace (id =? k) with false by (symmetry; apply Z.eqb_neq; congruence).
    reflexivity.
Qed.

Lemma read_words_In (text w : str) : In w (read_words_text text) -> In w (from_path_text text).
Proof.
  unfold read_words_text, from_path_text. intro H. apply (proj2 (from_words_In _ _)).
  apply in_map_iff in H as [l [<- Hl]]. apply filter_In in Hl as [Hl Hp].
  apply andb_true_iff in Hp as [Ha H5]. apply Nat.leb_le in H5.
  exists l. split; [exact Hl|split; [exact H5|split; [exact Ha|reflexivity]]].
Qed.

Lemma read_words_text_long (text w : str) : In w (read_words_text text) -> (5 <= length w)%nat.
Proof.
  unfold read_words_text. intro H. apply in_map_iff in H as [l [<- Hl]].
  apply filter_In in Hl as [_ Hp]. apply andb_true_iff in Hp as [_ H5].
  apply Nat.leb_le in H5. unfold to_ascii_uppercase. rewrite length_map. exact H5.
Qed.

Lemma fresh_game_ongoing (w : str) : w <> [] ->
  is_lost {| word := w; correct := []; incorrect := [] |} = false /\
  is_won {| word := w; correct := []; incorrect := [] |} = false.
Proof. destruct w as [|x w]; [congruence|]. split; reflexivity. Qed.

Lemma fresh_game_masked (w : str) :
  masked_word {| word := w; correct := []; incorrect := [] |} = repeat 42 (length w).
Proof. unfold masked_word. simpl. apply map_const. Qed.

(** On the secret word, the filter of a turn keeps it, as long as the
    solver's history is [consistent] with the game. *)
Lemma secret_in_filter {R : Type} (st : SolverState R) (g : Game) (d : list str) :
  consistent st g -> Forall (fun u => 65 <= u <= 90) (word g) -> In (word g) d ->
  In (word g) (filtered_dictionary (characterize st (masked_word g))
                 (map masked_atom (masked_word g)) d).
Proof.
  intros [C1 [C2 [C3 [C4 [C5 [C6 [C7 C8]]]]]]] Hl Hd.
  unfold filtered_dictionary, Shape_filter, shape_of. apply filter_In. split; [exact Hd|].
  cbn [expr shape_disallow]. apply andb_true_iff. split.
  - rewrite is_match_same_length by (unfold masked_word; rewrite !length_map; reflexivity).
    apply (proj2 (match_here_masked _ _ (masked_word_shape g Hl) (letters_no_newline _ Hl))).
    split; [unfold masked_word; rewrite length_map; lia|].
    intros i u Hi Hu. unfold masked_word in Hi. rewrite nth_error_map in Hi.
    destruct (nth_error (word g) i) as [x|]; simpl in Hi; [|discriminate].
    injection Hi as Hi. destruct (contains (correct g) x); [now subst|congruence].
  - apply forallb_disallow. intros u Hu Hdis.
    destruct (characterize_disallow st (masked_word g) u Hdis) as [H|[Hp Hm]].
    + exact (C8 u H Hu).
    + destruct (C6 u Hp) as [Hc|Hi];
        [exact (Hm (masked_word_In g u Hu Hc))|exact (C4 u Hi Hu)].
Qed.

(** A turn in which the selected letter [u] is a fresh guess keeps the
    history [consistent] with the game the server records. *)
Lemma consistent_step {R : Type} (st : SolverState R) (g g' : Game) (u : Z) (r' : R) :
  consistent st g -> word g' = word g -> ~ In u (correct g) -> ~ In u (incorrect g) ->
  (correct g' = u :: correct g /\ incorrect g' = incorrect g /\ In u (word g) \/
   correct g' = correct g /\ incorrect g' = u :: incorrect g /\ ~ In u (word g)) ->
  consistent (record_selection (characterize st (masked_word g)) u r') g'.
Proof.
  intros [C1 [C2 [C3 [C4 [C5 [C6 [C7 C8]]]]]]] Hw F1 F2 Hcase.
  assert (Hold : forall x, In x (correct g) \/ In x (incorrect g) ->
                           In x (correct g') \/ In x (incorrect g'))
    by (destruct Hcase as [[-> [-> _]]|[-> [-> _]]]; intros x [H|H]; simpl; auto).
  assert (Hnew : In u (correct g') \/ In u (incorrect g'))
    by (destruct Hcase as [[-> [-> _]]|[-> [-> _]]]; simpl; auto).
  unfold consistent, record_selection. cbn [submitted uncharacterized disallow]. rewrite Hw.
  split; [|split; [|split; [|split; [|split; [|split; [|split]]]]]].
  - destruct Hcase as [[-> _]|[-> _]]; [constructor; assumption|exact C1].
  - destruct Hcase as [[_ [-> _]]|[_ [-> _]]]; [exact C2|constructor; assumption].
  - destruct Hcase as [[-> [_ Hin]]|[-> _]];
      [intros x [<-|Hx]; [exact Hin|exact (C3 x Hx)]|exact C3].
  - destruct Hcase as [[_ [-> _]]|[_ [-> Hin]]];
      [exact C4|intros x [<-|Hx]; [exact Hin|exact (C4 x Hx)]].
  - intros x Hx. apply characterize_submitted in Hx. apply Hold.
    destruct Hx as [Hx|Hx]; [exact (C5 x Hx)|exact (C6 x Hx)].
  - intros x Hx. injection Hx as <-. exact Hnew.
  - intros x Hx. destruct (Z.eq_dec x u) as [->|Hne]; [right; reflexivity|left].
    apply (proj2 (characterize_submitted _ _ _)), C7.
    destruct Hcase as [[Ec [Ei _]]|[Ec [Ei _]]]; rewrite Ec, Ei in Hx; simpl in Hx.
    + destruct Hx as [[H|H]|H]; [exfalso; congruence|left; exact H|right; exact H].
    + destruct Hx as [H|[H|H]]; [left; exact H|exfalso; congruence|right; exact H].
  - intros x Hx. destruct (characterize_disallow _ _ _ Hx) as [H|[Hp Hm]]; [exact (C8 x H)|].
    destruct (C6 x Hp) as [Hc|Hi]; [|exact (C4 x Hi)].
    intro Hxw. exact (Hm (masked_word_In g x Hxw Hc)).
Qed.

Section Play.

Context {R : Type} (with_seed : Z -> R) (gen_index : R -> nat -> nat * R)
  (hash_iter : list (Z * nat) -> list (Z * nat)).
Hypothesis gen_index_lt : forall r n, (0 < n)%nat -> (fst (gen_index r n) < n)%nat.
Hypothesis hash_iter_perm : forall m, Permutation (hash_iter m) m.

Lemma first_rank_nonempty (st : SolverState R) (re : Regex) (d : list str) (k : Z) :
  contains (submitted st) k = false -> (0 < tally_get (frequency_of st re d) k)%nat ->
  first_rank_of hash_iter st re d <> [].
Proof.
  intros Hk Hpos. unfold first_rank_of, by_frequency_of.
  set (F := filter (fun entry => negb (contains (submitted st) (fst entry)))
              (hash_iter (frequency_of st re d))).
  assert (HF : In (k, tally_get (frequency_of st re d) k) F).
  { unfold F. apply filter_In. split; [|simpl; now rewrite Hk].
    apply (Permutation_in _ (Permutation_sym (hash_iter_perm _))).
    now apply tally_get_pos_In. }
  pose proof (sort_by_reverse_freq_perm F) as Hp.
  destruct (sort_by_reverse_freq F) as [|e0 l] eqn:E.
  - apply Permutation_nil in Hp. rewrite Hp in HF. destruct HF.
  - unfold first_rank_by_key. simpl. discriminate.
Qed.

(** The letter of a turn: ranked (never the alphabet fallback), fresh for
    the server, and an upper-case ASCII byte. *)
Lemma turn_select (text : str) (st : SolverState R) (g : Game) :
  consistent st g -> Forall (fun u => 65 <= u <= 90) (word g) ->
  In (word g) (from_path_text text) -> is_won g = false ->
  exists u r',
    next gen_index hash_iter st (masked_word g) (from_path_text text)
      = Some (u, record_selection (characterize st (masked_word g)) u r') /\
    In u (first_rank_of hash_iter (characterize st (masked_word g))
            (map masked_atom (masked_word g)) (from_path_text text)) /\
    ~ In u (correct g) /\ ~ In u (incorrect g) /\ u < 128 /\ to_ascii_uppercase_byte u = u.
Proof.
  intros Hc Hl Hd Hw.
  set (m := masked_word g). set (d := from_path_text text).
  set (st1 := characterize st m). set (re := map masked_atom m).
  assert (Hre : build_expr m = Some re) by exact (build_expr_masked m (masked_word_shape g Hl)).
  pose proof (secret_in_filter st g d Hc Hl Hd) as Hin. fold m st1 re in Hin.
  destruct Hc as [C1 [C2 [C3 [C4 [C5 [C6 [C7 C8]]]]]]].
  assert (Fresh : forall k, contains (submitted st1) k = false ->
                            ~ In k (correct g) /\ ~ In k (incorrect g)).
  { intros k Hk. apply contains_false in Hk. unfold st1 in Hk.
    rewrite characterize_submitted in Hk.
    split; intro H; apply Hk; apply C7; auto. }
  destruct (forallb_false_exists _ _ Hw) as [x [Hx Hxc]].
  assert (Hxs : contains (submitted st1) x = false).
  { apply contains_false. unfold st1. rewrite characterize_submitted. intros Hs.
    assert (H : In x (correct g) \/ In x (incorrect g))
      by (destruct Hs as [Hs|Hs]; [apply C5|apply C6]; exact Hs).
    apply contains_false in Hxc. destruct H as [H|H]; [exact (Hxc H)|exact (C4 x H Hx)]. }
  assert (Hpos : (0 < tally_get (frequency_of st1 re d) x)%nat).
  { unfold frequency_of. rewrite tally_get_count. apply count_occ_In.
    apply in_flat_map. exists (word g). split; [exact Hin|exact Hx]. }
  destruct (next_select R gen_index hash_iter gen_index_lt st m d re Hre) as [Sel _].
  destruct (Sel (first_rank_nonempty st1 re d x Hxs Hpos)) as [u [r' [E Hu]]].
  exists u, r'. split; [exact E|]. split; [exact Hu|].
  destruct (first_rank_max R hash_iter hash_iter_perm st1 re d u Hu) as [Hus [_ [Huf _]]].
  destruct (Fresh u Hus) as [F1 F2]. split; [exact F1|]. split; [exact F2|].
  apply in_flat_map in Huf as [e [He Hue]].
  unfold filtered_dictionary in He. apply filter_In in He as [He _].
  destruct (from_path_text_entry text e He) as [Ha [_ [l [_ [_ [_ He']]]]]].
  split.
  - unfold is_ascii in Ha. rewrite forallb_forall in Ha.
    apply Z.ltb_lt. exact (Ha u Hue).
  - subst e. unfold to_ascii_uppercase in Hue. apply in_map_iff in Hue as [y [<- _]].
    apply to_ascii_uppercase_byte_idem.
Qed.

(** One round of the loop: the letter sent, what the server does with it,
    and the history afterwards. *)
Lemma client_turn (text : str) (st : SolverState R) (g : Game) (games : list (Z * Game))
    (id : Z) :
  consistent st g -> Forall (fun u => 65 <= u <= 90) (word g) ->
  In (word g) (from_path_text text) ->
  is_lost g = false -> is_won g = false -> games_get games id = Some g ->
  exists u st' g',
    next gen_index hash_iter st (masked_word g) (from_path_text text) = Some (u, st') /\
    char_to_string u = [u] /\
    snd (update_game games id [u]) = games_set games id g' /\
    word g' = word g /\ consistent st' g' /\ (length (incorrect g') <= 7)%nat /\
    Permutation (u :: correct g ++ incorrect g) (correct g' ++ incorrect g') /\
    ((is_won g' = true /\ is_lost g' = false /\
      exists msg, fst (update_game games id [u]) = Ok (Finalize true msg (word g))) \/
     (is_won g' = false /\ is_lost g' = true /\
      exists msg, fst (update_game games id [u]) = Ok (Finalize false msg (word g))) \/
     (is_won g' = false /\ is_lost g' = false /\
      fst (update_game games id [u]) = Ok (Update (GameResponse_new g')))).
Proof.
  intros Hc Hl Hd HL HW Hg.
  destruct (turn_select text st g Hc Hl Hd HW) as [u [r' [E [_ [F1 [F2 [Ha Hup]]]]]]].
  assert (Hau : (u <? 128) = true) by (apply Z.ltb_lt; exact Ha).
  assert (Hascii : is_ascii [u] = true) by (unfold is_ascii; simpl; rewrite Hau; reflexivity).
  pose proof (update_game_legal games id [u] g eq_refl Hascii Hg) as Hleg.
  assert (Hlen6 : (length (incorrect g) <= 6)%nat) by (apply is_lost_false; exact HL).
  assert (Hcs : char_to_string u = [u]) by (unfold char_to_string; rewrite Hau; reflexivity).
  exists u, (record_selection (characterize st (masked_word g)) u r').
  rewrite Hleg. cbn [fst snd].
  destruct (in_dec Z.eq_dec u (word g)) as [Hin|Hin].
  - rewrite (ugf_hit g [u] u (eq_sym Hup) HL HW F1 F2 Hin). cbv zeta. cbn [fst snd].
    set (g' := {| word := word g; correct := u :: correct g; incorrect := incorrect g |}).
    exists g'. split; [exact E|]. split; [exact Hcs|]. split; [reflexivity|].
    split; [reflexivity|].
    split; [apply consistent_step; [exact Hc|reflexivity|exact F1|exact F2|]|].
    { left. split; [reflexivity|split; [reflexivity|exact Hin]]. }
    split; [unfold g'; simpl; lia|]. split; [reflexivity|].
    assert (HL' : is_lost g' = false) by exact HL.
    destruct (is_won g') eqn:Ew.
    + left. split; [reflexivity|]. split; [exact HL'|].
      destruct (guesses_remaining g' >=? 3); eexists; reflexivity.
    + right; right. split; [reflexivity|]. split; [exact HL'|reflexivity].
  - rewrite (ugf_miss g [u] u (eq_sym Hup) HL HW F1 F2 Hin). cbv zeta. cbn [fst snd].
    set (g' := {| word := word g; correct := correct g; incorrect := u :: incorrect g |}).
    exists g'. split; [exact E|]. split; [exact Hcs|]. split; [reflexivity|].
    split; [reflexivity|].
    split; [apply consistent_step; [exact Hc|reflexivity|exact F1|exact F2|]|].
    { right. split; [reflexivity|split; [reflexivity|exact Hin]]. }
    split; [unfold g'; simpl; lia|]. split; [apply Permutation_middle|].
    assert (HW' : is_won g' = false) by exact HW.
    destruct (is_lost g') eqn:El.
    + right; left. split; [exact HW'|]. split; [reflexivity|]. eexists; reflexivity.
    + right; right. split; [exact HW'|]. split; reflexivity.
Qed.

(** The loop, from any consistent history on an ongoing game, with enough
    fuel: it ends in [Finalize], every letter a fresh guess. *)
Lemma client_loop_play (text : str) (fuel : nat) (st : SolverState R) (g : Game)
    (games : list (Z * Game)) (id : Z) :
  consistent st g -> Forall (fun u => 65 <= u <= 90) (word g) ->
  In (word g) (from_path_text text) ->
  is_lost g = false -> is_won g = false -> games_get games id = Some g ->
  (33 <= fuel + length (correct g) + length (incorrect g))%nat ->
  exists us v gf,
    client_loop gen_index hash_iter fuel st (masked_word g) (from_path_text text) games id
      = Some (us, Some v, games_set games id gf) /\
    word gf = word g /\
    NoDup (correct gf) /\ NoDup (incorrect gf) /\ incl (correct gf) (word gf) /\
    (forall u, In u (incorrect gf) -> ~ In u (word gf)) /\
    (length (incorrect gf) <= 7)%nat /\
    Permutation (us ++ correct g ++ incorrect g) (correct gf ++ incorrect gf) /\
    (v = true /\ is_won gf = true /\ is_lost gf = false \/
     v = false /\ is_lost gf = true /\ is_won gf = false).
Proof.
  revert st g games. induction fuel as [|fuel IH]; intros st g games Hc Hl Hd HL HW Hg Hf.
  - exfalso. destruct Hc as [C1 [C2 [C3 _]]].
    pose proof (correct_le_26 g C1 C3 Hl). apply is_lost_false in HL. lia.
  - destruct (client_turn text st g games id Hc Hl Hd HL HW Hg) as
      [u [st' [g' [E [Hcs [Hgs [Hw' [Hc' [Hi7 [Hp Hresp]]]]]]]]]].
    cbn [client_loop]. rewrite E, Hcs.
    destruct (update_game games id [u]) as [res games'] eqn:U.
    cbn [fst snd] in Hgs, Hresp. subst games'.
    assert (Wf : NoDup (correct g') /\ NoDup (incorrect g') /\ incl (correct g') (word g') /\
                 (forall x, In x (incorrect g') -> ~ In x (word g')))
      by (destruct Hc' as [A [B [C [D _]]]]; auto).
    destruct Hresp as [[Ew [El [msg Hr]]]|[[Ew [El [msg Hr]]]|[Ew [El Hr]]]]; subst res.
    + exists [u], true, g'. split; [reflexivity|]. split; [exact Hw'|].
      split; [|split; [|split; [|split; [|split; [|split]]]]]; try apply Wf;
        [exact Hi7|exact Hp|left; auto].
    + exists [u], false, g'. split; [reflexivity|]. split; [exact Hw'|].
      split; [|split; [|split; [|split; [|split; [|split]]]]]; try apply Wf;
        [exact Hi7|exact Hp|right; auto].
    + cbn [gr_word GameResponse_new].
      assert (Hf' : (33 <= fuel + length (correct g') + length (incorrect g'))%nat).
      { pose proof (Permutation_length Hp) as HP. simpl in HP.
        rewrite !length_app in HP. lia. }
      destruct (IH st' g' (games_set games id g') Hc' ltac:(rewrite Hw'; exact Hl)
                  ltac:(rewrite Hw'; exact Hd) El Ew (games_get_set_same _ _ _ _ Hg) Hf')
        as [us [v [gf [El' [Hwf [N1 [N2 [I1 [I2 [I7 [Hpf Hv]]]]]]]]]]].
      rewrite El', games_set_set.
      exists (u :: us), v, gf. split; [reflexivity|]. split; [congruence|].
      split; [exact N1|]. split; [exact N2|]. split; [exact I1|]. split; [exact I2|].
      split; [exact I7|]. split; [|exact Hv].
      eapply Permutation_trans; [|exact Hpf]. simpl.
      eapply Permutation_trans; [apply Permutation_middle|].
      apply Permutation_app_head. exact Hp.
Qed.

(** X2: the tie-break set of a turn holds each byte once, and exactly the
    bytes of the filtered words that are not yet submitted and have the
    largest count among those. *)
Theorem first_rank_of_exact (st : SolverState R) (re : Regex) (d : list str) :
  NoDup (first_rank_of hash_iter st re d) /\
  (forall u, In u (first_rank_of hash_iter st re d) <->
     contains (submitted st) u = false /\ (0 < tally_get (frequency_of st re d) u)%nat /\
     (forall k, contains (submitted st) k = false ->
        (tally_get (frequency_of st re d) k <= tally_get (frequency_of st re d) u)%nat)).
Proof.
  unfold first_rank_of, by_frequency_of.
  set (T := frequency_of st re d).
  set (F := filter (fun entry => negb (contains (submitted st) (fst entry))) (hash_iter T)).
  split.
  - assert (HF : NoDup (map fst F)).
    { unfold F. apply keys_filter_NoDup.
      apply (Permutation_NoDup (Permutation_map fst (Permutation_sym (hash_iter_perm _)))).
      unfold T, frequency_of. apply tally_nodup. }
    destruct (first_rank_by_key_sub snd (sort_by_reverse_freq F)) as [p ->].
    apply keys_filter_NoDup.
    exact (Permutation_NoDup
             (Permutation_map fst (Permutation_sym (sort_by_reverse_freq_perm F))) HF).
  - intro u. split.
    + intro Hu. destruct (first_rank_max R hash_iter hash_iter_perm st re d u Hu)
        as [A [B [_ C]]].
      split; [exact A|]. split; [exact B|exact C].
    + intros [Hs [Hpos Hmax]].
      assert (HF : In (u, tally_get T u) F).
      { unfold F. apply filter_In. split; [|simpl; now rewrite Hs].
        apply (Permutation_in _ (Permutation_sym (hash_iter_perm _))).
        now apply tally_get_pos_In. }
      pose proof (sort_by_reverse_freq_head F) as Hhead.
      pose proof (sort_by_reverse_freq_perm F) as Hp.
      destruct (sort_by_reverse_freq F) as [|e0 l] eqn:E.
      * apply Permutation_nil in Hp. rewrite Hp in HF. destruct HF.
      * apply (in_map fst (first_rank_by_key (e0 :: l) snd) (u, tally_get T u)).
        apply first_rank_by_key_complete; [exact (Permutation_in _ (Permutation_sym Hp) HF)|].
        destruct e0 as [k v].
        assert (He0 : In (k, v) F) by (apply (Permutation_in _ Hp); now left).
        pose proof (Hhead _ HF) as H1. simpl in H1.
        unfold F in He0. apply filter_In in He0 as [He0 Hk]. simpl in Hk.
        apply negb_true_iff in Hk.
        apply (Permutation_in _ (hash_iter_perm T)) in He0.
        assert (Hv : tally_get T k = v)
          by (apply tally_get_In; [unfold T, frequency_of; apply tally_nodup|exact He0]).
        pose proof (Hmax k Hk). simpl. lia.
Qed.

(** X14: [create_game] panics ([None]) on an empty word list; otherwise it
    stores a fresh game on a word of the list under the new id, leaving
    the other ids alone, and answers the id, a mask of one ['*'] per byte
    and 7 guesses; the stored game satisfies [game_wf], and reading it back
    gives the same mask as an ongoing game (for a non-empty word). *)
Theorem create_game_fresh (words : list str) (r : R) (games : list (Z * Game)) (id : Z) :
  (words = [] -> create_game gen_index words r games id = None) /\
  (words <> [] ->
   exists w r',
     In w words /\
     create_game gen_index words r games id
       = Some ({| cg_id := id; cg_word := repeat 42 (length w); cg_guesses := 7 |}, r',
               games_insert games id {| word := w; correct := []; incorrect := [] |}) /\
     game_wf {| word := w; correct := []; incorrect := [] |} /\
     games_get (games_insert games id {| word := w; correct := []; incorrect := [] |}) id
       = Some {| word := w; correct := []; incorrect := [] |} /\
     (forall k, k <> id ->
        games_get (games_insert games id {| word := w; correct := []; incorrect := [] |}) k
        = games_get games k) /\
     (w <> [] ->
      read_game (games_insert games id {| word := w; correct := []; incorrect := [] |}) id
      = Ok (Update {| gr_word := repeat 42 (length w); gr_guesses := 7 |}))).
Proof.
  split; [intros ->; reflexivity|].
  intro Hne.
  destruct (slice_choose_cons R gen_index gen_index_lt words r Hne) as [w [r' [E Hw]]].
  exists w, r'. split; [exact Hw|].
  split.
  { unfold create_game, build_game. rewrite E. unfold CreateGameResponse_new.
    rewrite fresh_game_masked. reflexivity. }
  split.
  { unfold game_wf. cbn [correct incorrect word].
    split; [constructor|]. split; [constructor|]. split; [intros x []|].
    split; [intros x []|]. split; [simpl; lia|]. intros x [[]|[]]. }
  split; [apply games_get_insert|].
  split; [intros k Hk; apply games_get_insert_other, Hk|].
  intro Hw0. unfold read_game. rewrite games_get_insert.
  destruct (fresh_game_ongoing w Hw0) as [A B]. rewrite A, B.
  unfold UpdateGameResponse_update, GameResponse_new. rewrite fresh_game_masked.
  reflexivity.
Qed.

(** X16: while the solver's history is consistent with the game the
    server records (an ongoing game on a word of upper-case letters that is
    in the solver's dictionary), the secret word survives the turn's filter,
    [next] picks from the tie-break set (never the alphabet fallback) a
    letter not guessed before, the server accepts it ([Ok]) and the history
    stays consistent with the updated game. *)
Theorem solver_turn_accepted (text : str) (st : SolverState R) (g : Game)
    (games : list (Z * Game)) (id : Z) :
  consistent st g -> Forall (fun u => 65 <= u <= 90) (word g) ->
  In (word g) (from_path_text text) ->
  is_lost g = false -> is_won g = false -> games_get games id = Some g ->
  In (word g) (filtered_dictionary (characterize st (masked_word g))
                 (map masked_atom (masked_word g)) (from_path_text text)) /\
  exists u st' g' res,
    next gen_index hash_iter st (masked_word g) (from_path_text text) = Some (u, st') /\
    In u (first_rank_of hash_iter (characterize st (masked_word g))
            (map masked_atom (masked_word g)) (from_path_text text)) /\
    ~ In u (correct g) /\ ~ In u (incorrect g) /\
    update_game games id (char_to_string u) = (Ok res, games_set games id g') /\
    consistent st' g'.
Proof.
  intros Hc Hl Hd HL HW Hg.
  split; [exact (secret_in_filter st g _ Hc Hl Hd)|].
  destruct (turn_select text st g Hc Hl Hd HW) as [u [r' [E [Hu [F1 [F2 _]]]]]].
  destruct (client_turn text st g games id Hc Hl Hd HL HW Hg) as
      [u2 [st' [g' [E2 [Hcs [Hgs [_ [Hc' [_ [_ Hresp]]]]]]]]]].
  rewrite E in E2. injection E2 as <- <-.
  exists u, (record_selection (characterize st (masked_word g)) u r'), g'.
  rewrite Hcs.
  destruct (update_game games id [u]) as [res0 games'] eqn:U. cbn [fst snd] in Hgs, Hresp.
  subst games'.
  destruct Hresp as [[_ [_ [msg Hr]]]|[[_ [_ [msg Hr]]]|[_ [_ Hr]]]]; subst res0;
    eexists; split; [exact E| |exact E| |exact E|];
    (split; [exact Hu|]); (split; [exact F1|]); (split; [exact F2|]);
    (split; [reflexivity|exact Hc']).
Qed.

(** X17: a whole game of the strategic client against the server, both
    reading the same word file [text] whose entries are upper-case letters:
    [create_game] picks a word of the list, and the client loop from
    [SolverState::default] on the mask it is given ends within 33 rounds in
    [Finalize] (never an error response); the letters it sends are pairwise
    distinct and are exactly the guesses the server records; the victory
    flag says whether the game was won, otherwise it was lost; no other game
    of the table changes. *)
Theorem strategic_client_game (text : str) (r : R) (games : list (Z * Game)) (id : Z)
    (fuel : nat) :
  read_words_text text <> [] ->
  (forall w, In w (read_words_text text) -> Forall (fun u => 65 <= u <= 90) w) ->
  (33 <= fuel)%nat ->
  exists resp r' games1 us v games2 gf,
    create_game gen_index (read_words_text text) r games id = Some (resp, r', games1) /\
    client_loop gen_index hash_iter fuel (SolverState_default with_seed) (cg_word resp)
      (from_path_text text) games1 id = Some (us, Some v, games2) /\
    In (word gf) (read_words_text text) /\
    games_get games2 id = Some gf /\
    (forall k, k <> id -> games_get games2 k = games_get games k) /\
    NoDup us /\ Permutation us (correct gf ++ incorrect gf) /\ (length us <= 33)%nat /\
    (v = true /\ is_won gf = true /\ is_lost gf = false \/
     v = false /\ is_lost gf = true /\ is_won gf = false).
Proof.
  intros Hne Hlet Hfuel.
  destruct (slice_choose_cons R gen_index gen_index_lt (read_words_text text) r Hne)
    as [w [r' [Es Hw]]].
  pose proof (read_words_text_long text w Hw) as H5.
  assert (Hw0 : w <> []) by (intros ->; simpl in H5; lia).
  destruct (fresh_game_ongoing w Hw0) as [HL HW].
  set (g0 := {| word := w; correct := []; incorrect := [] |}) in *.
  assert (Hc0 : consistent (SolverState_default with_seed) g0).
  { unfold consistent, SolverState_default, g0.
    cbn [submitted uncharacterized disallow word correct incorrect].
    split; [constructor|]. split; [constructor|]. split; [intros x []|].
    split; [intros x []|]. split; [intros x []|]. split; [discriminate|].
    split; [intros x [[]|[]]|]. intros x []. }
  assert (Hf0 : (33 <= fuel + length (correct g0) + length (incorrect g0))%nat)
    by (unfold g0; simpl; lia).
  destruct (client_loop_play text fuel (SolverState_default with_seed) g0
              (games_insert games id g0) id Hc0 (Hlet w Hw) (read_words_In text w Hw) HL HW
              (games_get_insert games id g0) Hf0)
    as [us [v [gf [El [Hwf [N1 [N2 [I1 [I2 [I7 [Hp Hv]]]]]]]]]]].
  exists (CreateGameResponse_new id g0), r', (games_insert games id g0), us, v,
    (games_set (games_insert games id g0) id gf), gf.
  unfold g0 in Hp. cbn [correct incorrect app] in Hp. rewrite app_nil_r in Hp.
  split; [unfold create_game, build_game; rewrite Es; reflexivity|].
  split; [exact El|].
  split; [rewrite Hwf; exact Hw|].
  split; [exact (games_get_set_same _ _ _ _ (games_get_insert games id g0))|].
  split; [intros k Hk; rewrite games_get_set_other by exact Hk;
          apply games_get_insert_other, Hk|].
  assert (Hnd : NoDup (correct gf ++ incorrect gf))
    by (apply NoDup_app; [exact N1|exact N2|intros a Ha Hb; exact (I2 a Hb (I1 a Ha))]).
  split; [exact (Permutation_NoDup (Permutation_sym Hp) Hnd)|].
  split; [exact Hp|].
  split; [|exact Hv].
  rewrite (Permutation_length Hp), length_app.
  assert (Hlg : Forall (fun u => 65 <= u <= 90) (word gf)) by (rewrite Hwf; exact (Hlet w Hw)).
  pose proof (correct_le_26 gf N1 I1 Hlg). lia.
Qed.

End Play.

(** X18: the first server only rejects a letter already in [correct]: on
    an ongoing game whose [correct] letters are in the word and whose
    [incorrect] ones are not, repeating a wrong guess is answered with
    [Continue], the masked word and the number of guesses unchanged, and the
    table is left as it was; repeating a right guess is answered with
    [Illegal] and changes nothing either. *)
Theorem play_game_repeat (games : list (Z * Game)) (id b : Z) (g : Game) :
  games_get games id = Some g -> is_lost g = false -> is_won g = false ->
  incl (correct g) (word g) -> (forall u, In u (incorrect g) -> ~ In u (word g)) ->
  (In (to_ascii_uppercase_byte b) (incorrect g) ->
   play_game games id [b]
   = (Ok (Continue {| og_id := id; og_word := masked_word g;
                      og_guesses := guesses_remaining g |}), games)) /\
  (In (to_ascii_uppercase_byte b) (correct g) ->
   play_game games id [b] = (Ok (Illegal OldMessages.unique), games)).
Proof.
  intros Hg HL HW Hc Hi. unfold play_game. rewrite Hg, HL, HW. cbn [length Nat.eqb negb hd].
  split; intro Hu.
  - assert (Hw : ~ In (to_ascii_uppercase_byte b) (word g)) by exact (Hi _ Hu).
    assert (Hnc : ~ In (to_ascii_uppercase_byte b) (correct g)) by (intro H; exact (Hw (Hc _ H))).
    apply contains_false in Hnc. rewrite Hnc. cbv zeta.
    replace (existsb (fun u => u =? to_ascii_uppercase_byte b) (word g)) with false
      by (symmetry; apply not_true_iff_false; rewrite existsb_eqb_In; exact Hw).
    unfold hs_insert. rewrite (proj2 (contains_In _ _) Hu).
    destruct g as [w c i]. cbn [word correct incorrect] in *.
    rewrite HL. rewrite (games_set_get_id games id _ Hg). reflexivity.
  - rewrite (proj2 (contains_In _ _) Hu). reflexivity.
Qed.

(** ** Witnesses of the further theorems *)

Lemma first_rank_of_exact_witness :
  NoDup (first_rank_of demo_hash_iter (SolverState_default demo_with_seed)
           (map masked_atom mask5) (from_path_text demo_text)) /\
  (In 69 (first_rank_of demo_hash_iter (SolverState_default demo_with_seed)
            (map masked_atom mask5) (from_path_text demo_text)) <->
   contains (submitted (SolverState_default demo_with_seed)) 69 = false /\
   (0 < tally_get (frequency_of (SolverState_default demo_with_seed)
                     (map masked_atom mask5) (from_path_text demo_text)) 69)%nat /\
   (forall k, contains (submitted (SolverState_default demo_with_seed)) k = false ->
      (tally_get (frequency_of (SolverState_default demo_with_seed)
                    (map masked_atom mask5) (from_path_text demo_text)) k
       <= tally_get (frequency_of (SolverState_default demo_with_seed)
                       (map masked_atom mask5) (from_path_text demo_text)) 69)%nat)).
Proof.
  destruct (first_rank_of_exact demo_hash_iter demo_hash_iter_perm
              (SolverState_default demo_with_seed) (map masked_atom mask5)
              (from_path_text demo_text)) as [H1 H2].
  split; [exact H1|exact (H2 69)].
Defined.

Lemma lines_crlf_witness :
  ~ In 13 demo_text /\ read_words_text (crlf demo_text) = read_words_text demo_text.
Proof.
  assert (H : ~ In 13 demo_text) by (apply contains_false; reflexivity).
  split; [exact H|exact (proj2 (proj2 (lines_crlf demo_text H)))].
Defined.


Lemma update_game_errors_witness :
  update_game [(1, apple_mid)] 1 [112] = (Err (DuplicateGuess [112]), [(1, apple_mid)]) /\
  exists g, games_get [(1, apple_mid)] 1 = Some g /\ is_lost g = false /\ is_won g = false.
Proof.
  assert (E : update_game [(1, apple_mid)] 1 [112]
              = (Err (DuplicateGuess [112]), [(1, apple_mid)])) by reflexivity.
  split; [exact E|].
  destruct (update_game_errors _ _ _ _ _ E)
    as [_ [[He _]|[[He _]|[_ [_ [_ [g [Hg [HL [HW _]]]]]]]]]]; try discriminate He.
  exists g. auto.
Defined.

Lemma update_game_finished_witness :
  update_game [(1, apple_won)] 1 [66] = (read_game [(1, apple_won)] 1, [(1, apple_won)]) /\
  read_game [(1, apple_won)] 1 = Ok (Finalize true Messages.stop_rubbing apple).
Proof.
  exact (update_game_finished [(1, apple_won)] 1 [66] apple_won eq_refl eq_refl eq_refl eq_refl).
Defined.

Lemma update_game_accepted_witness :
  exists b g', [76] = [b] /\ games_get (snd (update_game [(1, apple_mid)] 1 [76])) 1 = Some g'
               /\ word g' = apple /\ In (to_ascii_uppercase_byte b) (correct g').
Proof.
  destruct (update_game [(1, apple_mid)] 1 [76]) as [[r|e] games'] eqn:E;
    [|vm_compute in E; discriminate E].
  destruct (update_game_accepted [(1, apple_mid)] 1 [76] apple_mid r games'
              eq_refl eq_refl eq_refl E)
    as [b [g' [Hb [Hg [Hw [_ [_ [[[_ [Hc _]]|[Hnin _]] _]]]]]]]].
  - exists b, g'. split; [exact Hb|]. split; [exact Hg|]. split; [exact Hw|].
    rewrite Hc. now left.
  - exfalso. injection Hb as <-. apply Hnin. vm_compute. tauto.
Defined.

Lemma update_game_case_insensitive_witness :
  snd (update_game [(1, apple_mid)] 1 [108]) = snd (update_game [(1, apple_mid)] 1 [76]).
Proof. exact (proj1 (update_game_case_insensitive [(1, apple_mid)] 1 108 ltac:(lia))). Defined.

Lemma apple_mid_wf : game_wf apple_mid.
Proof.
  unfold game_wf, apple_mid, apple. cbn [word correct incorrect].
  split; [constructor; [intros []|constructor]|].
  split; [constructor; [intros []|constructor]|].
  split; [intros x [<-|[]]; simpl; lia|].
  split; [intros x [<-|[]]; simpl; lia|].
  split; [simpl; lia|].
  intros x [[<-|[]]|[<-|[]]]; lia.
Qed.

Lemma update_game_wf_witness :
  exists g', games_get (snd (update_game [(1, apple_mid)] 1 [76])) 1 = Some g' /\ game_wf g'.
Proof.
  destruct (update_game_wf [(1, apple_mid)] 1 [76] apple_mid eq_refl apple_mid_wf)
    as [g' [Hg [_ [Hwf _]]]].
  exists g'. auto.
Defined.

Lemma create_game_fresh_witness :
  exists w, In w [apple; grape] /\ game_wf {| word := w; correct := []; incorrect := [] |}.
Proof.
  destruct (proj2 (create_game_fresh demo_gen_index demo_gen_index_lt [apple; grape] 7 [] 1)
              ltac:(discriminate)) as [w [r' [Hin [_ [Hwf _]]]]].
  exists w. auto.
Defined.

Lemma RandomSolver_cycle_witness :
  exists us s', RandomSolver_run (RandomSolver_new (fun (l : list Z) (r : Z) => (l, r)) 0) 30
                = Some (us, s') /\ length us = 30%nat.
Proof.
  destruct (RandomSolver_cycle (fun (l : list Z) (r : Z) => (l, r)) 0 30 ltac:(reflexivity))
    as [us [s' [E [Hl _]]]].
  exists us, s'. auto.
Defined.

Lemma consistent_apple_mid : consistent (Build_SolverState [80] (Some 90) [] 5) apple_mid.
Proof.
  unfold consistent, apple_mid, apple.
  cbn [submitted uncharacterized disallow word correct incorrect].
  split; [constructor; [intros []|constructor]|].
  split; [constructor; [intros []|constructor]|].
  split; [intros x [<-|[]]; simpl; lia|].
  split; [intros x [<-|[]]; simpl; lia|].
  split; [intros x [<-|[]]; left; now left|].
  split; [intros x Hx; injection Hx as <-; right; now left|].
  split; [intros x [[<-|[]]|[<-|[]]]; [left; now left|right; reflexivity]|].
  intros x [].
Qed.

Lemma apple_letters : Forall (fun u => 65 <= u <= 90) apple.
Proof. unfold apple. repeat (apply Forall_cons; [lia|]). apply Forall_nil. Qed.

Lemma solver_turn_accepted_witness :
  exists u st' g' res,
    next demo_gen_index demo_hash_iter (Build_SolverState [80] (Some 90) [] 5)
         (masked_word apple_mid) (from_path_text demo_text) = Some (u, st') /\
    update_game [(1, apple_mid)] 1 (char_to_string u) = (Ok res, games_set [(1, apple_mid)] 1 g')
    /\ consistent st' g'.
Proof.
  destruct (solver_turn_accepted demo_gen_index demo_hash_iter demo_gen_index_lt
              demo_hash_iter_perm demo_text (Build_SolverState [80] (Some 90) [] 5) apple_mid
              [(1, apple_mid)] 1 consistent_apple_mid apple_letters
              ltac:(vm_compute; tauto) eq_refl eq_refl eq_refl)
    as [_ [u [st' [g' [res [E [_ [_ [_ [U C]]]]]]]]]].
  exists u, st', g', res. auto.
Defined.

Lemma strategic_client_game_witness :
  exists resp r' games1 us v games2,
    create_game demo_gen_index (read_words_text demo_text) 7 [] 1 = Some (resp, r', games1) /\
    client_loop demo_gen_index demo_hash_iter 33 (SolverState_default demo_with_seed)
      (cg_word resp) (from_path_text demo_text) games1 1 = Some (us, Some v, games2) /\
    NoDup us.
Proof.
  assert (Hlet : forall w, In w (read_words_text demo_text) -> Forall (fun u => 65 <= u <= 90) w).
  { intros w Hw. vm_compute in Hw. destruct Hw as [<-|[<-|[<-|[]]]];
      repeat (apply Forall_cons; [lia|]); apply Forall_nil. }
  destruct (strategic_client_game demo_with_seed demo_gen_index demo_hash_iter
              demo_gen_index_lt demo_hash_iter_perm demo_text 7 [] 1 33
              ltac:(vm_compute; discriminate) Hlet ltac:(lia))
    as [resp [r' [games1 [us [v [games2 [gf [Ec [El [_ [_ [_ [Hnd _]]]]]]]]]]]]].
  exists resp, r', games1, us, v, games2. auto.
Defined.

Lemma play_game_repeat_witness :
  play_game [(1, apple_mid)] 1 [122]
  = (Ok (Continue {| og_id := 1; og_word := masked_word apple_mid;
                     og_guesses := guesses_remaining apple_mid |}), [(1, apple_mid)]).
Proof.
  apply (proj1 (play_game_repeat [(1, apple_mid)] 1 122 apple_mid eq_refl eq_refl eq_refl
                  ltac:(intros x [<-|[]]; unfold apple_mid, apple; simpl; lia)
                  ltac:(intros x [<-|[]]; unfold apple_mid, apple; simpl; lia))).
  vm_compute. now left.
Defined.
